(** * PokerSettle: the settlement engine and the report generator

    A shallow embedding of [calculateSettlements], [calculateTotals] and
    [generateMarkdownReport] of the PokerSettle page component, with the
    properties of the settlement engine stated and settled on it.

    Numbers.  The program computes on JavaScript numbers.  Amounts are
    modelled here as exact rationals [Q]; [Number(x.toFixed(2))] is the
    rounding of [x] to the nearest hundredth, ties away from zero.  The
    ledgers on which a property is shown to fail use amounts on which the
    program's binary arithmetic and the exact one take the same steps
    (integers, 1.5, 1281/256, 0.01 added to or taken from zero, and
    0.01 + 0.01 + 0.01 against 0.03, which are the same double).

    Totals.  The sums of [calculateTotals] are exact here, whereas the
    program's sums of entered amounts can be off in the last binary digit
    (0.1 + 0.2 is not 0.3).  A hypothesis on the totals is therefore a
    hypothesis on the totals the function computes, or on the guard it
    evaluates, never on the amounts as entered; where a theorem needs the
    guard to let a ledger of entered amounts through, it asks for a
    threshold of at least a cent.

    The loop.  [while (balances.length > 1)] need not terminate, so the loop
    carries a fuel argument: [None] means that the loop is still running
    when the fuel is spent.

    Objects.  The functions on values are enough for what a call returns.
    For what a call leaves behind, [Store] has the same function on a store
    of objects and arrays, with the in-place sort and the assignments to
    [balance] as the code has them; it is shown to return the transfers of
    the function on values. *)

From Stdlib Require Import List String Ascii Bool Arith ZArith QArith Qround Qabs Qminmax Lia Lqa Permutation.
From Stdlib Require Import Sorted.
Import ListNotations.

Local Open Scope Q_scope.

(** ** Data model *)

(** [interface Player] *)
Record Player : Type := mkPlayer {
  id : string;
  name : string;
  buyIn : Q;
  cashOut : Q
}.

(** [interface Settlement] *)
Record Settlement : Type := mkSettlement {
  from : string;
  to : string;
  amount : Q
}.

(** The object literal [{ id, name, balance }] built inside
    [calculateSettlements]. *)
Record Balance : Type := mkBalance {
  bal_id : string;
  bal_name : string;
  balance : Q
}.

(** ** Numbers *)

Definition Qltb (x y : Q) : bool := negb (Qle_bool y x).

(** Nearest integer, ties away from zero: the digit selection of
    [Number.prototype.toFixed]. *)
Definition round_half_away (x : Q) : Z :=
  if Qle_bool 0 x then Qfloor (x + (1 # 2))
  else (- Qfloor (- x + (1 # 2)))%Z.

(** [Number(x.toFixed(2))] *)
Definition toFixed2 (x : Q) : Q := round_half_away (x * 100) # 100.

Definition cent : Q := 1 # 100.

(** An amount in whole hundredths. *)
Definition isCents (x : Q) : Prop := exists n : Z, x == n # 100.

(** ** calculateTotals *)

Record Totals : Type := mkTotals {
  totalBuyIns : Q;
  totalCashOuts : Q
}.

Definition calculateTotals (players : list Player) : Totals :=
  fold_left
    (fun acc player =>
       {| totalBuyIns := totalBuyIns acc + buyIn player;
          totalCashOuts := totalCashOuts acc + cashOut player |})
    players
    {| totalBuyIns := 0; totalCashOuts := 0 |}.

(** ** calculateSettlements *)

Definition imbalanceOf (players : list Player) : Q :=
  let t := calculateTotals players in
  totalCashOuts t - totalBuyIns t.

(** The guard [Math.abs(imbalance) > imbalanceThreshold]. *)
Definition exceedsThreshold (players : list Player) (imbalanceThreshold : Q) : bool :=
  Qltb imbalanceThreshold (Qabs (imbalanceOf players)).

Definition adjustPlayers (players : list Player) (imbalanceThreshold : Q) : list Player :=
  let imbalance := imbalanceOf players in
  if Qle_bool (Qabs imbalance) imbalanceThreshold && (0 <? List.length players)%nat then
    let adjustment := imbalance / inject_Z (Z.of_nat (List.length players)) in
    map (fun player =>
           {| id := id player;
              name := name player;
              buyIn := buyIn player;
              cashOut := toFixed2 (cashOut player - adjustment) |})
        players
  else players.

Definition toBalance (player : Player) : Balance :=
  {| bal_id := id player;
     bal_name := name player;
     balance := toFixed2 (cashOut player - buyIn player) |}.

(** [p => Math.abs(p.balance) > 0.01] *)
Definition unsettled (p : Balance) : bool := Qltb cent (Qabs (balance p)).

(** The balances before the filter, one per player. *)
Definition allBalances (players : list Player) (imbalanceThreshold : Q) : list Balance :=
  map toBalance (adjustPlayers players imbalanceThreshold).

Definition initialBalances (players : list Player) (imbalanceThreshold : Q) : list Balance :=
  filter unsettled (allBalances players imbalanceThreshold).

(** [balances.sort((a, b) => Math.abs(b.balance) - Math.abs(a.balance))]:
    a stable sort by descending magnitude. *)
Fixpoint insertBalance (x : Balance) (l : list Balance) : list Balance :=
  match l with
  | [] => [x]
  | y :: l' =>
      if Qle_bool (Qabs (balance y)) (Qabs (balance x)) then x :: l
      else y :: insertBalance x l'
  end.

Definition sortBalances (l : list Balance) : list Balance :=
  fold_right insertBalance [] l.

(** Assignment to the [balance] field of the object at index [i]. *)
Fixpoint setBalance (i : nat) (v : Q) (l : list Balance) : list Balance :=
  match l, i with
  | [], _ => []
  | b :: l', O => {| bal_id := bal_id b; bal_name := bal_name b; balance := v |} :: l'
  | b :: l', S j => b :: setBalance j v l'
  end.

(** State of the loop: the [balances] array and the [settlements] array. *)
Definition LoopState : Type := (list Balance * list Settlement)%type.

(** Index of the object bound to [debtor], resp. [creditor], in the sorted
    array. *)
Definition debtorIndex (b0 : Balance) : nat := if Qltb (balance b0) 0 then 0%nat else 1%nat.
Definition creditorIndex (b0 : Balance) : nat := if Qltb 0 (balance b0) then 0%nat else 1%nat.

(** One iteration of the body of [while (balances.length > 1)]. *)
Definition loopBody (st : LoopState) : LoopState :=
  let '(balances, settlements) := st in
  let balances := sortBalances balances in
  match balances with
  | b0 :: _ :: _ =>
      let di := debtorIndex b0 in
      let ci := creditorIndex b0 in
      let debtor := nth di balances b0 in
      let creditor := nth ci balances b0 in
      let amount := Qmin (Qabs (balance debtor)) (balance creditor) in
      let settlements :=
        if Qltb 0 amount then
          settlements ++ [ {| from := bal_id debtor;
                              to := bal_id creditor;
                              amount := toFixed2 amount |} ]
        else settlements in
      let balances := setBalance di (toFixed2 (balance debtor + amount)) balances in
      let creditor := nth ci balances b0 in
      let balances := setBalance ci (toFixed2 (balance creditor - amount)) balances in
      (filter unsettled balances, settlements)
  | _ => st
  end.

(** [while (balances.length > 1) { ... }], returning the final state. *)
Fixpoint loop (fuel : nat) (st : LoopState) : option LoopState :=
  if (1 <? List.length (fst st))%nat then
    match fuel with
    | O => None
    | S fuel' => loop fuel' (loopBody st)
    end
  else Some st.

(** The state after [n] iterations of the loop (it stops changing once the
    loop has exited). *)
Fixpoint iterate (n : nat) (st : LoopState) : LoopState :=
  match n with
  | O => st
  | S n' => if (1 <? List.length (fst st))%nat then iterate n' (loopBody st) else st
  end.

Definition startState (players : list Player) (imbalanceThreshold : Q) : LoopState :=
  (initialBalances players imbalanceThreshold, []).

(** The whole function up to the end of the loop, keeping the final
    [balances] with the result. *)
Definition runSettlements (fuel : nat) (players : list Player) (imbalanceThreshold : Q)
  : option LoopState :=
  if exceedsThreshold players imbalanceThreshold then Some ([], [])
  else loop fuel (startState players imbalanceThreshold).

Definition calculateSettlements (fuel : nat) (players : list Player) (imbalanceThreshold : Q)
  : option (list Settlement) :=
  option_map snd (runSettlements fuel players imbalanceThreshold).

(** ** Sample ledgers *)

Definition P (i : string) (b c : Q) : Player :=
  {| id := i; name := i; buyIn := b; cashOut := c |}.

Definition B (i : string) (v : Q) : Balance :=
  {| bal_id := i; bal_name := i; balance := v |}.

Definition T (f t : string) (a : Q) : Settlement :=
  {| from := f; to := t; amount := a |}.

(** The spec's examples 1, 2 and 4. *)
Definition example1 : list Player := [P "A" 100 150; P "B" 100 50].
Definition example2 : list Player := [P "A" 100 100; P "B" 100 100].
Definition example4 : list Player := [P "A" 100 0].

(** Two creditors ahead of three smaller debtors. *)
Definition twoWinners : list Player :=
  [P "A" 0 6; P "B" 0 5; P "C" 4 0; P "D" 4 0; P "E" 3 0].

(** Two debtors ahead of three smaller creditors. *)
Definition twoLosers : list Player :=
  [P "A" 6 0; P "B" 5 0; P "C" 0 4; P "D" 0 4; P "E" 0 3].

(** Winnings of 4 and 2 against four losses of 1.5. *)
Definition sixPlayers : list Player :=
  [P "A" 0 4; P "B" 0 2; P "C" 1.5 0; P "D" 1.5 0; P "E" 1.5 0; P "F" 1.5 0].

(** One cent each way. *)
Definition oneCent : list Player := [P "A" 0 0.01; P "B" 0.01 0].

(** Cash-outs exceed buy-ins by 1/256, less than a cent. *)
Definition underOneCent : list Player := [P "A" 0 (1281 # 256); P "B" 5 0].

(** Example 3 of the spec, used with a threshold that admits its imbalance
    of 10. *)
Definition example3 : list Player := [P "A" 100 0; P "B" 100 0; P "C" 0 210].

(** The two states between which the loop alternates on [sixPlayers]. *)
Definition cycleA : list Balance :=
  [B "A" (200 # 100); B "B" (400 # 100); B "C" (-150 # 100); B "D" (-150 # 100);
   B "E" (-150 # 100); B "F" (-150 # 100)].

Definition cycleB : list Balance :=
  [B "B" (200 # 100); B "A" (400 # 100); B "C" (-150 # 100); B "D" (-150 # 100);
   B "E" (-150 # 100); B "F" (-150 # 100)].

(** ** Accounting of a transfer list *)

Fixpoint paid (settlements : list Settlement) (i : string) : Q :=
  match settlements with
  | [] => 0
  | s :: rest => (if String.eqb (from s) i then amount s else 0) + paid rest i
  end.

Fixpoint received (settlements : list Settlement) (i : string) : Q :=
  match settlements with
  | [] => 0
  | s :: rest => (if String.eqb (to s) i then amount s else 0) + received rest i
  end.

Definition balanceOf (l : list Balance) (i : string) : Q :=
  match find (fun b => String.eqb (bal_id b) i) l with
  | Some b => balance b
  | None => 0
  end.

(** What player [i] still owes (negative) or is still owed (positive) once
    the transfers are carried out, starting from the balances [start]. *)
Definition residual (start : list Balance) (settlements : list Settlement) (i : string) : Q :=
  balanceOf start i + paid settlements i - received settlements i.

(** [Settlement]: a positive amount between two different players. *)
Definition wellFormed (s : Settlement) : Prop := 0 < amount s /\ from s <> to s.

(** Payer and payee are among the identifiers [ids]. *)
Definition knownParties (ids : list string) (s : Settlement) : Prop :=
  In (from s) ids /\ In (to s) ids.

(** [calculateNetAmount]: the net position shown for a player. *)
Definition calculateNetAmount (player : Player) : Q := cashOut player - buyIn player.

(** What holds of the loop state at the head of every iteration. *)
Definition stateOK (st : LoopState) : Prop :=
  NoDup (map bal_id (fst st))
  /\ Forall (fun b => unsettled b = true) (fst st)
  /\ Forall wellFormed (snd st).

(** The bookkeeping the loop is meant to maintain, relative to the balances
    [start] computed before the filter: every entry still in the array
    carries the residual of its player, in whole hundredths, and every
    player no longer in the array has a residual of at most one cent. *)
Definition ledgerOK (start balances : list Balance) (settlements : list Settlement) : Prop :=
  NoDup (map bal_id balances)
  /\ (forall b, In b balances ->
        isCents (balance b) /\ residual start settlements (bal_id b) == balance b)
  /\ (forall i, In i (map bal_id start) -> ~ In i (map bal_id balances) ->
        Qabs (residual start settlements i) <= cent).

Definition withBalance (b : Balance) (v : Q) : Balance :=
  {| bal_id := bal_id b; bal_name := bal_name b; balance := v |}.

(** The two entries of largest magnitude have opposite signs. *)
Definition oppositeSigns (balances : list Balance) : bool :=
  match sortBalances balances with
  | b0 :: b1 :: _ =>
      (Qltb (balance b0) 0 && Qltb 0 (balance b1))
      || (Qltb 0 (balance b0) && Qltb (balance b1) 0)
  | _ => true
  end.

(** [oppositeSigns] holds at each of the first [n] iterations of the loop. *)
Fixpoint allOpposite (n : nat) (st : LoopState) : bool :=
  match n with
  | O => true
  | S n' =>
      if (1 <? List.length (fst st))%nat
      then oppositeSigns (fst st) && allOpposite n' (loopBody st)
      else true
  end.

(** ** generateMarkdownReport *)

Definition newline : string := String (ascii_of_nat 10) EmptyString.

(** [Array.prototype.join] *)
Fixpoint join (sep : string) (l : list string) : string :=
  match l with
  | [] => EmptyString
  | [x] => x
  | x :: rest => x ++ sep ++ join sep rest
  end.

(** The template hole [players.find(p => p.id === ident)?.name]: a missing
    player gives [undefined], which a template literal prints as the
    word. *)
Definition findName (players : list Player) (ident : string) : string :=
  match find (fun p => String.eqb (id p) ident) players with
  | Some p => name p
  | None => "undefined"
  end.

Section Report.

Local Open Scope string_scope.

(** [formatGBP] wraps the platform's [Intl.NumberFormat]; it is taken as
    given. *)
Variable formatGBP : Q -> string.

Definition settlementLine (players : list Player) (s : Settlement) : string :=
  "- " ++ findName players (from s) ++ " pays " ++ findName players (to s)
       ++ ": " ++ formatGBP (amount s).

Definition playerLine (p : Player) : string :=
  "| " ++ name p ++ " | " ++ formatGBP (buyIn p) ++ " | " ++ formatGBP (cashOut p)
       ++ " | " ++ formatGBP (cashOut p - buyIn p) ++ " |".

Definition imbalanceMessages (players : list Player) (imbalanceThreshold : Q) : list string :=
  let t := calculateTotals players in
  let difference := totalCashOuts t - totalBuyIns t in
  let isBalanced := Qltb (Qabs difference) cent in
  let isWithinThreshold := Qle_bool (Qabs difference) imbalanceThreshold in
  if negb isBalanced then
    if isWithinThreshold then
      ["Small imbalance of " ++ formatGBP (Qabs difference) ++ " detected (within threshold)"]
    else
      [(if Qltb 0 difference
        then "Cash-outs exceed buy-ins by " ++ formatGBP difference
        else "Buy-ins exceed cash-outs by " ++ formatGBP (Qabs difference))%string]
  else [].

Definition generateMarkdownReport (fuel : nat) (players : list Player) (imbalanceThreshold : Q)
  : option string :=
  let t := calculateTotals players in
  match calculateSettlements fuel players imbalanceThreshold with
  | None => None
  | Some settlements =>
      let messages := imbalanceMessages players imbalanceThreshold in
      let playerResults := join newline (map playerLine players) in
      let settlementsList := join newline (map (settlementLine players) settlements) in
      let report :=
        "# Poker Game Settlement Report" ++ newline ++ newline
        ++ "## Player Results" ++ newline ++ newline
        ++ "| Player | Buy-in | Cash-out | Net |" ++ newline
        ++ "|--------|---------|-----------|-----|" ++ newline
        ++ playerResults ++ newline ++ newline
        ++ "**Total Buy-ins:** " ++ formatGBP (totalBuyIns t) ++ newline
        ++ "**Total Cash-outs:** " ++ formatGBP (totalCashOuts t) in
      let report :=
        if (0 <? List.length messages)%nat then
          report ++ newline ++ newline ++ "## Game Imbalance" ++ newline
                 ++ join newline (map (fun msg => "- " ++ msg) messages)
        else report in
      Some (report ++ newline ++ newline ++ "## Settlements Required" ++ newline ++ newline
                   ++ settlementsList)
  end.

End Report.

(** ** Order of the sorted array *)

(** [a] may stand before [b]: the comparator [Math.abs(b.balance) -
    Math.abs(a.balance)] is not positive. *)
Definition descendingMagnitude (a b : Balance) : Prop :=
  Qabs (balance b) <= Qabs (balance a).

(** The entries whose magnitude is [m]. *)
Definition ofMagnitude (m : Q) (l : list Balance) : list Balance :=
  filter (fun b => Qeq_bool (Qabs (balance b)) m) l.

(** A transfer in whole hundredths, of more than one hundredth. *)
Definition aboveOneCent (s : Settlement) : Prop := isCents (amount s) /\ cent < amount s.

(** What the loop keeps of the balances, whatever their signs: whole
    hundredths, each of more than one hundredth in magnitude. *)
Definition centsOK (st : LoopState) : Prop :=
  Forall (fun b => isCents (balance b) /\ unsettled b = true) (fst st)
  /\ Forall aboveOneCent (snd st).

(** Who pays and who receives, relative to the balances [start]: nobody
    owed money has paid, nobody owing money has received, and no residual
    has changed sign. *)
Definition sidesOK (start : list Balance) (settlements : list Settlement) : Prop :=
  forall i,
    0 <= paid settlements i /\ 0 <= received settlements i
    /\ (0 <= balanceOf start i ->
          paid settlements i == 0 /\ 0 <= residual start settlements i)
    /\ (balanceOf start i <= 0 ->
          received settlements i == 0 /\ residual start settlements i <= 0).

(** ** Net positions after the transfers *)


Definition sumOver (f : Player -> Q) (l : list Player) : Q :=
  fold_right (fun p acc => f p + acc) 0 l.




(** ** The page component [Home] *)

(** The state hooks of [Home] and its handlers, as functions on a snapshot
    of the state.  The writes to [localStorage] are not modelled. *)
Module Home.

Record State : Type := mkState {
  players : list Player;
  newPlayerName : string;
  imbalanceThreshold : Q;
  settlements : list Settlement
}.

(** [field: 'buyIn' | 'cashOut'] *)
Inductive AmountField : Type := BuyIn | CashOut.

(** [x || ''] on an optional string. *)
Definition orEmpty (x : option string) : string :=
  match x with
  | Some s => if String.eqb s EmptyString then EmptyString else s
  | None => EmptyString
  end.

(** [players.find(p => p.id === id)?.name || ''] *)
Definition getPlayerName (st : State) (ident : string) : string :=
  orEmpty (option_map name (find (fun p => String.eqb (id p) ident) (players st))).

Section Handlers.

(** [String.prototype.trim], taken as given. *)
Variable trim : string -> string.

(** [addPlayer]; [now] is [Date.now().toString()]. *)
Definition addPlayer (now : string) (st : State) : State :=
  if String.eqb (trim (newPlayerName st)) EmptyString then st
  else
    let newPlayer :=
      {| id := now; name := trim (newPlayerName st); buyIn := 0; cashOut := 0 |} in
    {| players := players st ++ [newPlayer];
       newPlayerName := EmptyString;
       imbalanceThreshold := imbalanceThreshold st;
       settlements := [] |}.

End Handlers.

Definition removePlayer (ident : string) (st : State) : State :=
  {| players := filter (fun player => negb (String.eqb (id player) ident)) (players st);
     newPlayerName := newPlayerName st;
     imbalanceThreshold := imbalanceThreshold st;
     settlements := [] |}.

(** [{ ...player, [field]: value }] *)
Definition withAmount (field : AmountField) (value : Q) (player : Player) : Player :=
  match field with
  | BuyIn => {| id := id player; name := name player; buyIn := value; cashOut := cashOut player |}
  | CashOut => {| id := id player; name := name player; buyIn := buyIn player; cashOut := value |}
  end.

Definition updatePlayerAmount (ident : string) (field : AmountField) (value : Q) (st : State)
  : State :=
  {| players := map (fun player =>
                       if String.eqb (id player) ident then withAmount field value player
                       else player)
                    (players st);
     newPlayerName := newPlayerName st;
     imbalanceThreshold := imbalanceThreshold st;
     settlements := [] |}.

Record GameBalance : Type := mkGameBalance {
  totalBuyIns : Q;
  totalCashOuts : Q;
  difference : Q;
  isBalanced : bool;
  isWithinThreshold : bool
}.

Definition getGameBalance (st : State) : GameBalance :=
  let '(mkTotals totalBuyIns totalCashOuts) := calculateTotals (players st) in
  let difference := totalCashOuts - totalBuyIns in
  {| totalBuyIns := totalBuyIns;
     totalCashOuts := totalCashOuts;
     difference := difference;
     isBalanced := Qltb (Qabs difference) cent;
     isWithinThreshold := Qle_bool (Qabs difference) (imbalanceThreshold st) |}.

(** [resetGame]; [confirmed] is the answer to [window.confirm]. *)
Definition resetGame (confirmed : bool) (st : State) : State :=
  if confirmed then
    {| players := [];
       newPlayerName := newPlayerName st;
       imbalanceThreshold := 1;
       settlements := settlements st |}
  else st.

(** [players.length > 0 || imbalanceThreshold !== 1] *)
Definition hasGameState (st : State) : bool :=
  (0 <? List.length (players st))%nat || negb (Qeq_bool (imbalanceThreshold st) 1).

Definition handleCalculateSettlements (fuel : nat) (st : State) : option State :=
  match calculateSettlements fuel (players st) (imbalanceThreshold st) with
  | Some newSettlements =>
      Some {| players := players st;
              newPlayerName := newPlayerName st;
              imbalanceThreshold := imbalanceThreshold st;
              settlements := newSettlements |}
  | None => None
  end.

Definition setNewPlayerName (value : string) (st : State) : State :=
  {| players := players st;
     newPlayerName := value;
     imbalanceThreshold := imbalanceThreshold st;
     settlements := settlements st |}.

Definition setImbalanceThreshold (value : Q) (st : State) : State :=
  {| players := players st;
     newPlayerName := newPlayerName st;
     imbalanceThreshold := value;
     settlements := settlements st |}.

(** [player[field]] *)
Definition amountOf (field : AmountField) (player : Player) : Q :=
  match field with
  | BuyIn => buyIn player
  | CashOut => cashOut player
  end.

(** What the user can do on the page. *)
Inductive Event : Type :=
| TypeName (value : string)
| AddPlayer (now : string)
| RemovePlayer (ident : string)
| UpdatePlayerAmount (ident : string) (field : AmountField) (value : Q)
| ChangeThreshold (value : Q)
| CalculateSettlements (fuel : nat)
| ResetGame (confirmed : bool).

Definition handle (trim : string -> string) (ev : Event) (st : State) : option State :=
  match ev with
  | TypeName value => Some (setNewPlayerName value st)
  | AddPlayer now => Some (addPlayer trim now st)
  | RemovePlayer ident => Some (removePlayer ident st)
  | UpdatePlayerAmount ident field value => Some (updatePlayerAmount ident field value st)
  | ChangeThreshold value => Some (setImbalanceThreshold value st)
  | CalculateSettlements fuel => handleCalculateSettlements fuel st
  | ResetGame confirmed => Some (resetGame confirmed st)
  end.

(** The events in order; [None] when a calculation does not return. *)
Fixpoint run (trim : string -> string) (events : list Event) (st : State) : option State :=
  match events with
  | [] => Some st
  | ev :: rest =>
      match handle trim ev st with
      | Some st' => run trim rest st'
      | None => None
      end
  end.

(** The state after mounting: whatever players and threshold were saved,
    an empty name field and no settlements. *)
Definition mounted (savedPlayers : list Player) (savedThreshold : Q) : State :=
  {| players := savedPlayers;
     newPlayerName := EmptyString;
     imbalanceThreshold := savedThreshold;
     settlements := [] |}.

End Home.

(** Whenever there are players, the displayed transfers name players of
    the list. *)
Definition displayOK (st : Home.State) : Prop :=
  Home.players st <> [] ->
  Forall (knownParties (map id (Home.players st))) (Home.settlements st).

(** ** The engine on a store of objects *)

(** The same function with its objects and arrays in a store, so that what
    a call leaves behind is what the next call finds: the player objects
    and the array passed in by the caller, and the objects and arrays the
    function creates and assigns to ([balances.sort], [debtor.balance =],
    [settlements.push]).  A reference is an index into the store; creating
    an object appends it.  [None] stands for no result: the fuel is spent,
    or a reference does not hold what the code reads from it. *)
Module Store.

Definition ref : Type := nat.

Inductive object : Type :=
| PlayerObject (player : Player)
| BalanceObject (entry : Balance)
| SettlementObject (settlement : Settlement)
| ArrayObject (items : list ref).

Definition store : Type := list object.

Definition M (A : Type) : Type := store -> option (A * store).

Definition ret {A : Type} (a : A) : M A := fun h => Some (a, h).

Definition bind {A B : Type} (m : M A) (k : A -> M B) : M B :=
  fun h => match m h with
           | Some (a, h') => k a h'
           | None => None
           end.

Definition fail {A : Type} : M A := fun _ => None.

Notation "x <- m ;; k" := (bind m (fun x => k))
  (at level 61, m at next level, right associativity).

(** An object literal or a new array. *)
Definition alloc (o : object) : M ref := fun h => Some (List.length h, h ++ [o]).

Definition load (r : ref) : M object :=
  fun h => match nth_error h r with
           | Some o => Some (o, h)
           | None => None
           end.

Fixpoint update (r : ref) (o : object) (h : store) : store :=
  match h, r with
  | [], _ => []
  | _ :: rest, O => o :: rest
  | x :: rest, S r' => x :: update r' o rest
  end.

(** Assignment to an existing object. *)
Definition assign (r : ref) (o : object) : M unit :=
  fun h => if (r <? List.length h)%nat then Some (tt, update r o h) else None.

Definition getPlayer (r : ref) : M Player :=
  o <- load r ;; match o with PlayerObject player => ret player | _ => fail end.

Definition getBalance (r : ref) : M Balance :=
  o <- load r ;; match o with BalanceObject entry => ret entry | _ => fail end.

Definition getSettlement (r : ref) : M Settlement :=
  o <- load r ;; match o with SettlementObject settlement => ret settlement | _ => fail end.

Definition getArray (r : ref) : M (list ref) :=
  o <- load r ;; match o with ArrayObject items => ret items | _ => fail end.

Fixpoint mapM {A B : Type} (f : A -> M B) (l : list A) : M (list B) :=
  match l with
  | [] => ret []
  | x :: rest => y <- f x ;; ys <- mapM f rest ;; ret (y :: ys)
  end.

Fixpoint filterM {A : Type} (f : A -> M bool) (l : list A) : M (list A) :=
  match l with
  | [] => ret []
  | x :: rest => keep <- f x ;; kept <- filterM f rest ;; ret (if keep then x :: kept else kept)
  end.

Fixpoint foldM {A B : Type} (f : B -> A -> M B) (l : list A) (acc : B) : M B :=
  match l with
  | [] => ret acc
  | x :: rest => acc' <- f acc x ;; foldM f rest acc'
  end.

(** [players.reduce(...)] *)
Definition calculateTotals (players : ref) : M Totals :=
  items <- getArray players ;;
  foldM (fun acc r =>
           player <- getPlayer r ;;
           ret {| totalBuyIns := totalBuyIns acc + buyIn player;
                  totalCashOuts := totalCashOuts acc + cashOut player |})
        items {| totalBuyIns := 0; totalCashOuts := 0 |}.

(** The stable sort of the references by the magnitude of the balance
    they point to. *)
Fixpoint insertEntry (x : ref * Balance) (l : list (ref * Balance)) : list (ref * Balance) :=
  match l with
  | [] => [x]
  | y :: l' =>
      if Qle_bool (Qabs (balance (snd y))) (Qabs (balance (snd x))) then x :: l
      else y :: insertEntry x l'
  end.

Definition sortEntries (l : list (ref * Balance)) : list (ref * Balance) :=
  fold_right insertEntry [] l.

(** [balances.sort(...)]: the array is reordered in place. *)
Definition sort (balances : ref) : M unit :=
  items <- getArray balances ;;
  entries <- mapM getBalance items ;;
  assign balances (ArrayObject (map fst (sortEntries (combine items entries)))).

(** [array.push(item)] *)
Definition push (array item : ref) : M unit :=
  items <- getArray array ;;
  assign array (ArrayObject (items ++ [item])).

(** [entry.balance = g(entry)] *)
Definition modifyBalance (r : ref) (g : Balance -> Q) : M unit :=
  entry <- getBalance r ;;
  assign r (BalanceObject {| bal_id := bal_id entry; bal_name := bal_name entry;
                             balance := g entry |}).

(** [array.filter(p => Math.abs(p.balance) > 0.01)]: a new array. *)
Definition keepUnsettled (array : ref) : M ref :=
  items <- getArray array ;;
  kept <- filterM (fun r => entry <- getBalance r ;; ret (unsettled entry)) items ;;
  alloc (ArrayObject kept).

Fixpoint loop (fuel : nat) (balances settlements : ref) : M ref :=
  items <- getArray balances ;;
  if (1 <? List.length items)%nat then
    match fuel with
    | O => fail
    | S fuel' =>
        _ <- sort balances ;;
        sorted <- getArray balances ;;
        match sorted with
        | r0 :: r1 :: _ =>
            b0 <- getBalance r0 ;;
            let debtor := if Qltb (balance b0) 0 then r0 else r1 in
            let creditor := if Qltb 0 (balance b0) then r0 else r1 in
            d <- getBalance debtor ;;
            c <- getBalance creditor ;;
            let amount := Qmin (Qabs (balance d)) (balance c) in
            _ <- (if Qltb 0 amount then
                    s <- alloc (SettlementObject
                                  {| from := bal_id d; to := bal_id c;
                                     amount := toFixed2 amount |}) ;;
                    push settlements s
                  else ret tt) ;;
            _ <- modifyBalance debtor (fun entry => toFixed2 (balance entry + amount)) ;;
            _ <- modifyBalance creditor (fun entry => toFixed2 (balance entry - amount)) ;;
            balances' <- keepUnsettled balances ;;
            loop fuel' balances' settlements
        | _ => fail
        end
    end
  else ret settlements.

Definition calculateSettlements (fuel : nat) (players : ref) (imbalanceThreshold : Q) : M ref :=
  totals <- calculateTotals players ;;
  let imbalance := totalCashOuts totals - totalBuyIns totals in
  if Qltb imbalanceThreshold (Qabs imbalance) then alloc (ArrayObject [])
  else
    items <- getArray players ;;
    copy <- alloc (ArrayObject items) ;;
    adjustedPlayers <-
      (if Qle_bool (Qabs imbalance) imbalanceThreshold && (0 <? List.length items)%nat then
         let adjustment := imbalance / inject_Z (Z.of_nat (List.length items)) in
         adjusted <- mapM (fun r =>
                             player <- getPlayer r ;;
                             alloc (PlayerObject
                                      {| id := id player;
                                         name := name player;
                                         buyIn := buyIn player;
                                         cashOut := toFixed2 (cashOut player - adjustment) |}))
                          items ;;
         alloc (ArrayObject adjusted)
       else ret copy) ;;
    adjusted <- getArray adjustedPlayers ;;
    entries <- mapM (fun r => player <- getPlayer r ;; alloc (BalanceObject (toBalance player)))
                    adjusted ;;
    mapped <- alloc (ArrayObject entries) ;;
    balances <- keepUnsettled mapped ;;
    settlements <- alloc (ArrayObject []) ;;
    loop fuel balances settlements.

(** The transfers in the array [r]. *)
Definition transfers (r : ref) : M (list Settlement) :=
  items <- getArray r ;; mapM getSettlement items.

(** The references [rs] hold the values [xs], as objects of one kind. *)
Definition holds {A : Type} (inj : A -> object) (h : store) (rs : list ref) (xs : list A)
  : Prop :=
  Forall2 (fun r x => nth_error h r = Some (inj x)) rs xs.

(** [players] is an array of player objects with the values [ps]. *)
Definition holdsPlayers (h : store) (players : ref) (ps : list Player) : Prop :=
  exists items, nth_error h players = Some (ArrayObject items) /\ holds PlayerObject h items ps.

(** Every object of [h0] is in [h], unchanged. *)
Definition preserved (h0 h : store) : Prop := firstn (List.length h0) h = h0.

(** The state of the loop in the store: the two arrays and what they
    hold, every reference of them created after [n0]. *)
Definition loopState (n0 : nat) (h : store) (balances settlements : ref)
  (bal : list Balance) (ss : list Settlement) : Prop :=
  exists rs srs,
    nth_error h balances = Some (ArrayObject rs)
    /\ holds BalanceObject h rs bal
    /\ NoDup rs /\ Forall (fun r => (n0 <= r)%nat) rs /\ (n0 <= balances)%nat
    /\ nth_error h settlements = Some (ArrayObject srs)
    /\ holds SettlementObject h srs ss
    /\ (n0 <= settlements)%nat /\ balances <> settlements.

End Store.

(** The first [n] objects are the same in both stores. *)
Definition frame (n : nat) (h h' : Store.store) : Prop := firstn n h' = firstn n h.

(** The two arrays of the loop and what they hold. *)
Definition cells (h : Store.store) (balances settlements : Store.ref)
  (rs : list Store.ref) (bal : list Balance) (srs : list Store.ref) (ss : list Settlement) : Prop :=
  nth_error h balances = Some (Store.ArrayObject rs)
  /\ Store.holds Store.BalanceObject h rs bal
  /\ nth_error h settlements = Some (Store.ArrayObject srs)
  /\ Store.holds Store.SettlementObject h srs ss.

(** The ledger of [example1] as the caller holds it: two player objects
    and the array of them, at reference 2. *)
Definition exampleStore : Store.store :=
  [ Store.PlayerObject (P "A" 100 150); Store.PlayerObject (P "B" 100 50);
    Store.ArrayObject [0%nat; 1%nat] ].

(** ** Numbers: comparison and rounding *)

Section Numbers.

Lemma Qltb_lt (x y : Q) : Qltb x y = true <-> x < y.
Proof.
  unfold Qltb. rewrite negb_true_iff. split; intro H.
  - apply Qnot_le_lt. intro Hle. apply Qle_bool_iff in Hle. congruence.
  - destruct (Qle_bool y x) eqn:E; [|reflexivity].
    apply Qle_bool_iff in E. exfalso. apply (Qlt_not_le _ _ H E).
Qed.

Lemma Qltb_ge (x y : Q) : Qltb x y = false <-> y <= x.
Proof.
  unfold Qltb. rewrite negb_false_iff. apply Qle_bool_iff.
Qed.

Lemma Qfloor_half (m : Z) : Qfloor (inject_Z m + (1 # 2)) = m.
Proof.
  unfold Qfloor, Qplus, inject_Z. simpl.
  replace (m * 2 + 1)%Z with (1 + m * 2)%Z by lia.
  rewrite Z.div_add by lia. reflexivity.
Qed.

Lemma round_half_away_Z (m : Z) : round_half_away (inject_Z m) = m.
Proof.
  unfold round_half_away. destruct (Qle_bool 0 (inject_Z m)).
  - apply Qfloor_half.
  - rewrite <- inject_Z_opp, Qfloor_half. lia.
Qed.

Lemma round_half_away_comp (x y : Q) : x == y -> round_half_away x = round_half_away y.
Proof.
  intro H. unfold round_half_away.
  assert (E : Qle_bool 0 x = Qle_bool 0 y) by (rewrite H; reflexivity).
  rewrite E. destruct (Qle_bool 0 y).
  - apply Qfloor_comp. rewrite H. reflexivity.
  - f_equal. apply Qfloor_comp. rewrite H. reflexivity.
Qed.

Lemma cents_scaled (x : Q) (n : Z) : x == n # 100 -> x * 100 == inject_Z n.
Proof.
  intro H. rewrite H. unfold Qeq, Qmult, inject_Z. simpl. lia.
Qed.

Lemma toFixed2_isCents (x : Q) : isCents (toFixed2 x).
Proof. exists (round_half_away (x * 100)). reflexivity. Qed.

Lemma toFixed2_cents (x : Q) : isCents x -> toFixed2 x == x.
Proof.
  intros [n Hn]. unfold toFixed2.
  rewrite (round_half_away_comp _ _ (cents_scaled _ _ Hn)), round_half_away_Z.
  symmetry. exact Hn.
Qed.

Lemma isCents_comp (x y : Q) : x == y -> isCents x -> isCents y.
Proof. intros E [n Hn]. exists n. rewrite <- E. exact Hn. Qed.

Lemma isCents_plus (x y : Q) : isCents x -> isCents y -> isCents (x + y).
Proof.
  intros [n Hn] [m Hm]. exists (n + m)%Z. rewrite Hn, Hm.
  unfold Qeq, Qplus. simpl. lia.
Qed.

Lemma isCents_opp (x : Q) : isCents x -> isCents (- x).
Proof.
  intros [n Hn]. exists (- n)%Z. rewrite Hn. unfold Qeq, Qopp. simpl. lia.
Qed.

Lemma isCents_minus (x y : Q) : isCents x -> isCents y -> isCents (x - y).
Proof. intros Hx Hy. apply isCents_plus; [exact Hx | apply isCents_opp, Hy]. Qed.

Lemma isCents_abs (x : Q) : isCents x -> isCents (Qabs x).
Proof.
  intro Hx. apply Qabs_case; intros _; [exact Hx | apply isCents_opp, Hx].
Qed.

Lemma isCents_min (x y : Q) : isCents x -> isCents y -> isCents (Qmin x y).
Proof.
  intros Hx Hy. destruct (Q.min_spec x y) as [[_ E] | [_ E]].
  - apply (isCents_comp x); [symmetry; exact E | exact Hx].
  - apply (isCents_comp y); [symmetry; exact E | exact Hy].
Qed.

(** Rounding an amount above one hundredth gives a positive amount. *)
Lemma toFixed2_pos (x : Q) : cent < x -> 0 < toFixed2 x.
Proof.
  intro H. unfold cent in H.
  assert (H1 : 1 <= x * 100) by lra.
  unfold toFixed2, round_half_away.
  assert (E : Qle_bool 0 (x * 100) = true) by (apply Qle_bool_iff; lra).
  rewrite E.
  assert (F : (1 <= Qfloor (x * 100 + (1 # 2)))%Z).
  { assert (G : 1 + (1 # 2) <= x * 100 + (1 # 2)) by lra.
    apply Qfloor_resp_le in G. exact G. }
  revert F. generalize (Qfloor (x * 100 + (1 # 2))). intros n F.
  unfold Qlt. simpl. lia.
Qed.

End Numbers.

(** ** The loop as a function of fuel *)

Section Fuel.

Lemma loop_exit (fuel : nat) (st : LoopState) :
  (1 <? List.length (fst st))%nat = false -> loop fuel st = Some st.
Proof. intro H. destruct fuel; simpl; rewrite H; reflexivity. Qed.

Lemma loop_more_fuel (fuel : nat) : forall st r,
  loop fuel st = Some r -> loop (S fuel) st = Some r.
Proof.
  induction fuel as [|fuel IH]; intros st r H.
  - simpl in *. destruct (1 <? List.length (fst st))%nat; [discriminate | exact H].
  - change (loop (S (S fuel)) st)
      with (if (1 <? List.length (fst st))%nat then loop (S fuel) (loopBody st) else Some st).
    change (loop (S fuel) st)
      with (if (1 <? List.length (fst st))%nat then loop fuel (loopBody st) else Some st) in H.
    destruct (1 <? List.length (fst st))%nat; [apply IH; exact H | exact H].
Qed.

Lemma loop_fuel_le (fuel fuel' : nat) (st r : LoopState) :
  (fuel <= fuel')%nat -> loop fuel st = Some r -> loop fuel' st = Some r.
Proof.
  induction 1 as [|m _ IH]; intro H; [exact H | apply loop_more_fuel, IH, H].
Qed.

(** Two runs that both return agree, whatever fuel each was given. *)
Lemma loop_fuel_irrelevant (f1 f2 : nat) (st r1 r2 : LoopState) :
  loop f1 st = Some r1 -> loop f2 st = Some r2 -> r1 = r2.
Proof.
  intros H1 H2.
  apply (loop_fuel_le f1 (Nat.max f1 f2)) in H1; [|apply Nat.le_max_l].
  apply (loop_fuel_le f2 (Nat.max f1 f2)) in H2; [|apply Nat.le_max_r].
  congruence.
Qed.

(** A returning loop returns the state that [iterate] reaches. *)
Lemma loop_iterate (fuel : nat) : forall st r,
  loop fuel st = Some r -> r = iterate fuel st.
Proof.
  induction fuel as [|fuel IH]; intros st r H; simpl in *.
  - destruct (1 <? List.length (fst st))%nat; congruence.
  - destruct (1 <? List.length (fst st))%nat; [apply IH, H | congruence].
Qed.

End Fuel.

(** ** The examples of the specification *)

Example example1_one_transfer :
  calculateSettlements 5 example1 1 = Some [T "B" "A" (5000 # 100)].
Proof. vm_compute. reflexivity. Qed.

Example example2_nothing_to_settle : calculateSettlements 5 example2 1 = Some [].
Proof. vm_compute. reflexivity. Qed.

Example example4_refused :
  exceedsThreshold example4 1 = true /\ calculateSettlements 5 example4 1 = Some [].
Proof. split; vm_compute; reflexivity. Qed.

(** ** The imbalance guard *)

(** C2.  When the absolute value of total cash-outs minus total buy-ins is
    strictly greater than the (non-negative) threshold, the function
    returns the empty transfer list; it does so before the loop, hence for
    any fuel. *)
Theorem imbalance_above_threshold_gives_empty
  (fuel : nat) (players : list Player) (imbalanceThreshold : Q) :
  0 <= imbalanceThreshold ->
  imbalanceThreshold
    < Qabs (totalCashOuts (calculateTotals players) - totalBuyIns (calculateTotals players)) ->
  calculateSettlements fuel players imbalanceThreshold = Some [].
Proof.
  intros _ H. unfold calculateSettlements, runSettlements, exceedsThreshold, imbalanceOf.
  apply Qltb_lt in H. cbv zeta. rewrite H. reflexivity.
Qed.

Lemma imbalance_above_threshold_gives_empty_witness :
  calculateSettlements 0 example4 1 = Some [].
Proof.
  apply imbalance_above_threshold_gives_empty.
  - unfold Qle. simpl. lia.
  - vm_compute. reflexivity.
Defined.

(** C7, as the code has it.  With a threshold of 0 the guard lets the
    computation proceed exactly when the imbalance is zero: total cash-outs
    equal total buy-ins, with no tolerance of one cent. *)
Theorem zero_threshold_proceeds_iff_exactly_balanced (players : list Player) :
  exceedsThreshold players 0 = false
  <-> totalCashOuts (calculateTotals players) == totalBuyIns (calculateTotals players).
Proof.
  unfold exceedsThreshold, imbalanceOf. cbv zeta. rewrite Qltb_ge.
  set (c := totalCashOuts (calculateTotals players)).
  set (b := totalBuyIns (calculateTotals players)).
  split; intro H.
  - assert (H0 := Qabs_nonneg (c - b)).
    assert (E : Qabs (c - b) == 0) by (apply Qle_antisym; assumption).
    revert E. apply Qabs_case; intros _ E; lra.
  - assert (E : c - b == 0) by lra. rewrite E. vm_compute. discriminate.
Qed.

(** C7, as stated, fails on [underOneCent]: the totals differ by 1/256,
    less than a cent, and a threshold of 0 refuses to settle (a threshold
    of one cent settles the same ledger). *)
Lemma zero_threshold_refuses_within_one_cent :
  Qabs (imbalanceOf underOneCent) <= cent
  /\ exceedsThreshold underOneCent 0 = true
  /\ calculateSettlements 5 underOneCent 0 = Some []
  /\ calculateSettlements 5 underOneCent cent
     = Some [ {| from := "B"; to := "A"; amount := 500 # 100 |} ].
Proof.
  repeat split; vm_compute; solve [reflexivity | discriminate].
Qed.

(** ** Determinism *)

(** The result does not depend on how long a call was allowed to run: two
    returning runs on the same players and threshold agree. *)
Lemma calculateSettlements_deterministic
  (fuel1 fuel2 : nat) (players : list Player) (imbalanceThreshold : Q)
  (r1 r2 : list Settlement) :
  calculateSettlements fuel1 players imbalanceThreshold = Some r1 ->
  calculateSettlements fuel2 players imbalanceThreshold = Some r2 ->
  r1 = r2.
Proof.
  unfold calculateSettlements, runSettlements.
  destruct (exceedsThreshold players imbalanceThreshold); simpl.
  - congruence.
  - destruct (loop fuel1 _) as [s1|] eqn:E1; [|discriminate].
    destruct (loop fuel2 _) as [s2|] eqn:E2; [|discriminate].
    simpl. intros H1 H2.
    rewrite (loop_fuel_irrelevant _ _ _ _ _ E1 E2) in H1. congruence.
Qed.

(** ** Ledgers on which the two largest balances share a sign *)

(** C3 at [twoWinners].  The ledger balances exactly (11 in, 11 out).  In
    the first iteration the sorted array starts with +6 and +5: the two
    largest balances are both positive, and the entry bound to [debtor]
    (index 1, because entry 0 is not negative) has the positive balance
    5, not a negative one. *)
Theorem debtor_is_positive_on_twoWinners :
  exceedsThreshold twoWinners 0 = false
  /\ sortBalances (initialBalances twoWinners 0)
     = [B "A" (600 # 100); B "B" (500 # 100); B "C" (-400 # 100);
        B "D" (-400 # 100); B "E" (-300 # 100)]
  /\ oppositeSigns (initialBalances twoWinners 0) = false
  /\ (let sorted := sortBalances (initialBalances twoWinners 0) in
      let b0 := B "A" (600 # 100) in
      let debtor := nth (debtorIndex b0) sorted b0 in
      let creditor := nth (creditorIndex b0) sorted b0 in
      debtor = B "B" (500 # 100) /\ creditor = b0 /\ 0 < balance debtor).
Proof.
  repeat split; vm_compute; reflexivity.
Qed.

(** C4 at [twoLosers].  The ledger balances exactly.  A owes 6 and B owes
    5; the first iteration pairs the two of them, moves B's debt onto A
    without any transfer, and A ends up paying 11, more than the 6 A owed,
    while B pays nothing. *)
Theorem payer_exceeds_deficit_on_twoLosers :
  calculateSettlements 5 twoLosers 0
  = Some [T "A" "C" (400 # 100); T "A" "D" (400 # 100); T "A" "E" (300 # 100)]
  /\ balanceOf (allBalances twoLosers 0) "A" = -600 # 100
  /\ paid [T "A" "C" (400 # 100); T "A" "D" (400 # 100); T "A" "E" (300 # 100)] "A" == 11
  /\ Qabs (balanceOf (allBalances twoLosers 0) "A")
     < paid [T "A" "C" (400 # 100); T "A" "D" (400 # 100); T "A" "E" (300 # 100)] "A".
Proof.
  repeat split; vm_compute; reflexivity.
Qed.

(** C5 at [twoWinners].  Five players, five transfers: the first one sends
    5 from B, who is owed 5, to A, who is owed 6, and eliminates
    nobody. *)
Theorem five_transfers_for_five_players :
  calculateSettlements 5 twoWinners 0
  = Some [T "B" "A" (500 # 100); T "C" "B" (400 # 100); T "D" "B" (400 # 100);
          T "E" "B" (200 # 100); T "E" "A" (100 # 100)]
  /\ List.length twoWinners = 5%nat
  /\ forall ss, calculateSettlements 5 twoWinners 0 = Some ss ->
       (List.length ss > List.length twoWinners - 1)%nat.
Proof.
  split; [vm_compute; reflexivity|]. split; [reflexivity|].
  intros ss H. vm_compute in H. injection H as <-. simpl. lia.
Qed.

Lemma loopBody_start_sixPlayers :
  loopBody (startState sixPlayers 0) = (cycleA, [T "B" "A" (200 # 100)]).
Proof. vm_compute. reflexivity. Qed.

Lemma loopBody_cycleA (ss : list Settlement) :
  loopBody (cycleA, ss) = (cycleB, ss ++ [T "A" "B" (200 # 100)]).
Proof. vm_compute. reflexivity. Qed.

Lemma loopBody_cycleB (ss : list Settlement) :
  loopBody (cycleB, ss) = (cycleA, ss ++ [T "B" "A" (200 # 100)]).
Proof. vm_compute. reflexivity. Qed.

Lemma loop_cycle_never_exits (fuel : nat) : forall ss,
  loop fuel (cycleA, ss) = None /\ loop fuel (cycleB, ss) = None.
Proof.
  induction fuel as [|fuel IH]; intro ss.
  - split; reflexivity.
  - split.
    + change (loop (S fuel) (cycleA, ss)) with (loop fuel (loopBody (cycleA, ss))).
      rewrite loopBody_cycleA. apply IH.
    + change (loop (S fuel) (cycleB, ss)) with (loop fuel (loopBody (cycleB, ss))).
      rewrite loopBody_cycleB. apply IH.
Qed.

(** C6 at [sixPlayers].  The ledger balances exactly (6 in, 6 out), and
    the loop never exits: A (+4) and B (+2) outrank the four debtors of
    1.5, so each iteration moves 2 between A and B and swaps their
    balances.  No amount of fuel yields a result, and the number of
    iterations exceeds every bound. *)
Theorem loop_never_exits_on_sixPlayers :
  exceedsThreshold sixPlayers 0 = false
  /\ (forall fuel, calculateSettlements fuel sixPlayers 0 = None)
  /\ (forall n, (1 <? List.length (fst (iterate n (startState sixPlayers 0))))%nat = true).
Proof.
  split; [vm_compute; reflexivity|]. split.
  - intro fuel. unfold calculateSettlements, runSettlements.
    replace (exceedsThreshold sixPlayers 0) with false by (vm_compute; reflexivity).
    destruct fuel as [|fuel]; [reflexivity|].
    change (loop (S fuel) (startState sixPlayers 0))
      with (loop fuel (loopBody (startState sixPlayers 0))).
    rewrite loopBody_start_sixPlayers.
    rewrite (proj1 (loop_cycle_never_exits fuel _)). reflexivity.
  - assert (H : forall n ss,
        (1 <? List.length (fst (iterate n (cycleA, ss))))%nat = true
        /\ (1 <? List.length (fst (iterate n (cycleB, ss))))%nat = true).
    { induction n as [|n IH]; intro ss; [split; reflexivity|].
      split.
      - change (iterate (S n) (cycleA, ss)) with (iterate n (loopBody (cycleA, ss))).
        rewrite loopBody_cycleA. apply IH.
      - change (iterate (S n) (cycleB, ss)) with (iterate n (loopBody (cycleB, ss))).
        rewrite loopBody_cycleB. apply IH. }
    intros [|n]; [reflexivity|].
    change (iterate (S n) (startState sixPlayers 0))
      with (iterate n (loopBody (startState sixPlayers 0))).
    rewrite loopBody_start_sixPlayers. apply H.
Qed.

(** ** Lists of balances *)

Section BalanceLists.

Lemma insertBalance_perm (x : Balance) (l : list Balance) :
  Permutation (insertBalance x l) (x :: l).
Proof.
  induction l as [|y l IH]; simpl; [reflexivity|].
  destruct (Qle_bool (Qabs (balance y)) (Qabs (balance x))); [reflexivity|].
  rewrite IH. apply perm_swap.
Qed.

Lemma sortBalances_perm (l : list Balance) : Permutation (sortBalances l) l.
Proof.
  induction l as [|x l IH]; simpl; [reflexivity|].
  rewrite insertBalance_perm. constructor. exact IH.
Qed.

Lemma setBalance_ids (i : nat) (v : Q) (l : list Balance) :
  map bal_id (setBalance i v l) = map bal_id l.
Proof.
  revert i. induction l as [|b l IH]; intros [|i]; simpl; try reflexivity.
  rewrite IH. reflexivity.
Qed.

Lemma NoDup_map_filter {A C : Type} (f : A -> C) (p : A -> bool) (l : list A) :
  NoDup (map f l) -> NoDup (map f (filter p l)).
Proof.
  induction l as [|x l IH]; simpl; intro H; [constructor|].
  inversion H as [|? ? Hx Hl]; subst.
  destruct (p x); simpl; [|apply IH, Hl].
  constructor; [|apply IH, Hl].
  intro Hin. apply Hx. apply in_map_iff in Hin. destruct Hin as [y [E Hy]].
  apply filter_In in Hy. apply in_map_iff. exists y. tauto.
Qed.

Lemma Forall_filter_true {A : Type} (p : A -> bool) (l : list A) :
  Forall (fun x => p x = true) (filter p l).
Proof. apply Forall_forall. intros x Hx. apply filter_In in Hx. tauto. Qed.

Lemma adjustPlayers_ids (players : list Player) (imbalanceThreshold : Q) :
  map id (adjustPlayers players imbalanceThreshold) = map id players.
Proof.
  unfold adjustPlayers. cbv zeta.
  destruct (_ && _); [|reflexivity].
  rewrite map_map. reflexivity.
Qed.

Lemma allBalances_ids (players : list Player) (imbalanceThreshold : Q) :
  map bal_id (allBalances players imbalanceThreshold) = map id players.
Proof.
  unfold allBalances. rewrite map_map. simpl. apply adjustPlayers_ids.
Qed.

Lemma allBalances_cents (players : list Player) (imbalanceThreshold : Q) (b : Balance) :
  In b (allBalances players imbalanceThreshold) -> isCents (balance b).
Proof.
  unfold allBalances. intro H. apply in_map_iff in H. destruct H as [p [<- _]].
  apply toFixed2_isCents.
Qed.

(** A balance that passed the filter is negative or positive, never zero. *)
Lemma unsettled_sign (b : Balance) :
  unsettled b = true ->
  (Qltb (balance b) 0 = true /\ Qltb 0 (balance b) = false)
  \/ (Qltb (balance b) 0 = false /\ Qltb 0 (balance b) = true).
Proof.
  unfold unsettled, cent. intro H. apply Qltb_lt in H.
  rewrite !Qltb_lt, !Qltb_ge. revert H. apply Qabs_case; intros H0 H; [right | left]; lra.
Qed.

Lemma amount_above_cent (d c : Balance) :
  unsettled d = true -> unsettled c = true ->
  0 < Qmin (Qabs (balance d)) (balance c) ->
  cent < Qmin (Qabs (balance d)) (balance c).
Proof.
  unfold unsettled. rewrite !Qltb_lt. intros Hd Hc.
  destruct (Q.min_spec (Qabs (balance d)) (balance c)) as [[_ E] | [_ E]];
    rewrite E; intro H; [exact Hd|].
  revert Hc. apply Qabs_case; intros H0 Hc; unfold cent in *; lra.
Qed.

End BalanceLists.

(** ** Well-formed transfers *)

Section WellFormed.

Lemma loopBody_stateOK (st : LoopState) : stateOK st -> stateOK (loopBody st).
Proof.
  destruct st as [bal ss]. intros (Hnd & Hun & Hwf). simpl in *.
  unfold loopBody.
  assert (Hp := sortBalances_perm bal).
  destruct (sortBalances bal) as [|b0 [|b1 rest]] eqn:E;
    try (repeat split; assumption).
  assert (Hnd' : NoDup (map bal_id (b0 :: b1 :: rest))).
  { eapply Permutation_NoDup; [|exact Hnd]. apply Permutation_map, Permutation_sym, Hp. }
  assert (Hun' : Forall (fun b => unsettled b = true) (b0 :: b1 :: rest)).
  { eapply Permutation_Forall; [|exact Hun]. apply Permutation_sym, Hp. }
  cbv zeta. repeat split; cbn [fst snd].
  - apply NoDup_map_filter. rewrite !setBalance_ids. exact Hnd'.
  - apply Forall_filter_true.
  - inversion Hun' as [|? ? U0 Hun'']; subst. inversion Hun'' as [|? ? U1 _]; subst.
    assert (Hne : bal_id b0 <> bal_id b1).
    { simpl in Hnd'. inversion Hnd' as [|? ? Hx _]; subst.
      intro Heq. apply Hx. left. symmetry. exact Heq. }
    destruct (unsettled_sign b0 U0) as [[S1 S2] | [S1 S2]];
      unfold debtorIndex, creditorIndex; rewrite S1, S2; cbn [nth];
      match goal with |- Forall _ (if ?c then _ else _) => destruct c eqn:Ha end;
      try exact Hwf.
    all: apply Forall_app; split; [exact Hwf|].
    all: apply Forall_cons; [|apply Forall_nil]; split; cbn [amount from to].
    all: try (apply toFixed2_pos, amount_above_cent;
              [assumption | assumption | apply Qltb_lt, Ha]).
    all: congruence.
Qed.

Lemma iterate_stateOK (n : nat) : forall st, stateOK st -> stateOK (iterate n st).
Proof.
  induction n as [|n IH]; intros st H; simpl; [exact H|].
  destruct (1 <? List.length (fst st))%nat; [apply IH, loopBody_stateOK, H | exact H].
Qed.

Lemma startState_stateOK (players : list Player) (imbalanceThreshold : Q) :
  NoDup (map id players) -> stateOK (startState players imbalanceThreshold).
Proof.
  intro H. unfold startState, initialBalances. repeat split; cbn [fst snd].
  - apply NoDup_map_filter. rewrite allBalances_ids. exact H.
  - apply Forall_filter_true.
  - constructor.
Qed.

End WellFormed.

(** C10.  For players with unique identifiers, every transfer the loop has
    pushed after any number of iterations, and so every transfer of a
    returned list, has a strictly positive amount and a payer different
    from its payee. *)
Theorem transfers_are_well_formed (players : list Player) (imbalanceThreshold : Q) :
  NoDup (map id players) ->
  0 <= imbalanceThreshold ->
  (forall n, Forall wellFormed (snd (iterate n (startState players imbalanceThreshold))))
  /\ (forall fuel settlements,
        calculateSettlements fuel players imbalanceThreshold = Some settlements ->
        Forall wellFormed settlements).
Proof.
  intros Hnd _. split.
  - intro n. apply (iterate_stateOK n _ (startState_stateOK _ _ Hnd)).
  - intros fuel ss. unfold calculateSettlements, runSettlements.
    destruct (exceedsThreshold players imbalanceThreshold); simpl.
    + intro H. injection H as <-. constructor.
    + destruct (loop fuel _) as [r|] eqn:E; [|discriminate].
      simpl. intro H. injection H as <-.
      rewrite (loop_iterate _ _ _ E).
      apply (iterate_stateOK fuel _ (startState_stateOK _ _ Hnd)).
Qed.

(** ** The ledger kept by the loop *)

Section Ledger.

Variable start : list Balance.

Lemma paid_push (ss : list Settlement) (s : Settlement) (i : string) :
  paid (ss ++ [s]) i == paid ss i + (if String.eqb (from s) i then amount s else 0).
Proof.
  induction ss as [|t ss IH]; simpl; [lra|]. rewrite IH. lra.
Qed.

Lemma received_push (ss : list Settlement) (s : Settlement) (i : string) :
  received (ss ++ [s]) i == received ss i + (if String.eqb (to s) i then amount s else 0).
Proof.
  induction ss as [|t ss IH]; simpl; [lra|]. rewrite IH. lra.
Qed.

Lemma residual_push (ss : list Settlement) (s : Settlement) (i : string) :
  residual start (ss ++ [s]) i
  == residual start ss i
     + (if String.eqb (from s) i then amount s else 0)
     - (if String.eqb (to s) i then amount s else 0).
Proof.
  unfold residual. rewrite paid_push, received_push. lra.
Qed.

Lemma balanceOf_In (l : list Balance) (b : Balance) :
  NoDup (map bal_id l) -> In b l -> balanceOf l (bal_id b) = balance b.
Proof.
  unfold balanceOf. induction l as [|x l IH]; simpl; intros Hnd Hin; [contradiction|].
  inversion Hnd as [|? ? Hx Hl]; subst.
  destruct Hin as [-> | Hin].
  - rewrite String.eqb_refl. reflexivity.
  - destruct (String.eqb (bal_id x) (bal_id b)) eqn:E.
    + apply String.eqb_eq in E. exfalso. apply Hx. rewrite E. apply in_map, Hin.
    + apply IH; assumption.
Qed.

Lemma ledgerOK_perm (l l' : list Balance) (ss : list Settlement) :
  Permutation l l' -> ledgerOK start l ss -> ledgerOK start l' ss.
Proof.
  intros Hp (Hnd & Hin & Hout). repeat split.
  - eapply Permutation_NoDup; [apply Permutation_map, Hp | exact Hnd].
  - apply Hin. eapply Permutation_in; [apply Permutation_sym, Hp | assumption].
  - apply Hin. eapply Permutation_in; [apply Permutation_sym, Hp | assumption].
  - intros i Hi Hni. apply Hout; [exact Hi|]. intro H. apply Hni.
    eapply Permutation_in; [apply Permutation_map, Hp | exact H].
Qed.

Lemma ledgerOK_filter (l : list Balance) (ss : list Settlement) :
  ledgerOK start l ss -> ledgerOK start (filter unsettled l) ss.
Proof.
  intros (Hnd & Hin & Hout). repeat split.
  - apply NoDup_map_filter, Hnd.
  - apply Hin. apply filter_In in H. tauto.
  - apply Hin. apply filter_In in H. tauto.
  - intros i Hi Hni.
    destruct (in_dec string_dec i (map bal_id l)) as [Hl | Hl]; [|apply Hout; assumption].
    apply in_map_iff in Hl. destruct Hl as [b [<- Hb]].
    destruct (Hin b Hb) as [_ Hr]. rewrite Hr.
    destruct (unsettled b) eqn:U.
    + exfalso. apply Hni. apply in_map. apply filter_In. tauto.
    + unfold unsettled in U. apply Qltb_ge in U. exact U.
Qed.

Lemma ledgerOK_start :
  NoDup (map bal_id start) ->
  (forall b, In b start -> isCents (balance b)) ->
  ledgerOK start start [].
Proof.
  intros Hnd Hc. repeat split.
  - exact Hnd.
  - apply Hc, H.
  - unfold residual. simpl. rewrite (balanceOf_In _ _ Hnd H). lra.
  - intros i Hi Hni. contradiction.
Qed.

(** Moving [a] from the debtor [d] to the creditor [c], and recording the
    transfer, keeps the ledger. *)
Lemma ledgerOK_transfer (d c : Balance) (rest : list Balance) (ss : list Settlement)
  (a a' vd vc : Q) :
  ledgerOK start (d :: c :: rest) ss ->
  isCents a -> a' == a -> vd == balance d + a -> vc == balance c - a ->
  ledgerOK start (withBalance d vd :: withBalance c vc :: rest)
           (ss ++ [ {| from := bal_id d; to := bal_id c; amount := a' |} ]).
Proof.
  intros (Hnd & Hin & Hout) Ha Ea Ed Ec.
  assert (Hdc : bal_id d <> bal_id c).
  { simpl in Hnd. inversion Hnd as [|? ? Hx _]; subst. intro E. apply Hx. left. congruence. }
  assert (Hrest : forall b, In b rest -> bal_id b <> bal_id d /\ bal_id b <> bal_id c).
  { intros b Hb. simpl in Hnd. inversion Hnd as [|? ? Hx Hnd']; subst.
    inversion Hnd' as [|? ? Hy _]; subst. split; intro E.
    - apply Hx. right. rewrite <- E. apply in_map, Hb.
    - apply Hy. rewrite <- E. apply in_map, Hb. }
  destruct (Hin d (or_introl eq_refl)) as [Cd Rd].
  destruct (Hin c (or_intror (or_introl eq_refl))) as [Cc Rc].
  repeat split.
  - exact Hnd.
  - destruct H as [<- | [<- | Hb]]; simpl.
    + apply (isCents_comp (balance d + a)); [symmetry; exact Ed | apply isCents_plus; assumption].
    + apply (isCents_comp (balance c - a)); [symmetry; exact Ec | apply isCents_minus; assumption].
    + apply Hin. right. right. exact Hb.
  - rewrite residual_push. cbn [from to amount].
    destruct H as [<- | [<- | Hb]]; cbn [bal_id withBalance balance].
    + rewrite String.eqb_refl.
      replace (String.eqb (bal_id c) (bal_id d)) with false
        by (symmetry; apply String.eqb_neq; congruence).
      rewrite Rd, Ed, Ea. lra.
    + rewrite String.eqb_refl.
      replace (String.eqb (bal_id d) (bal_id c)) with false
        by (symmetry; apply String.eqb_neq; congruence).
      rewrite Rc, Ec, Ea. lra.
    + destruct (Hrest b Hb) as [N1 N2].
      replace (String.eqb (bal_id d) (bal_id b)) with false
        by (symmetry; apply String.eqb_neq; congruence).
      replace (String.eqb (bal_id c) (bal_id b)) with false
        by (symmetry; apply String.eqb_neq; congruence).
      destruct (Hin b (or_intror (or_intror Hb))) as [_ Rb]. rewrite Rb. lra.
  - intros i Hi Hni. rewrite residual_push. cbn [from to amount].
    assert (N1 : String.eqb (bal_id d) i = false).
    { apply String.eqb_neq. intro E. apply Hni. left. exact E. }
    assert (N2 : String.eqb (bal_id c) i = false).
    { apply String.eqb_neq. intro E. apply Hni. right. left. exact E. }
    rewrite N1, N2.
    assert (Hold := Hout i Hi Hni).
    setoid_replace (residual start ss i + 0 - 0) with (residual start ss i) by lra.
    exact Hold.
Qed.

End Ledger.

(** ** Iterations that pair a debtor with a creditor *)

Section OppositeSigns.

Variable start : list Balance.

Lemma min_abs_pos (d c : Q) : d < 0 -> 0 < c -> 0 < Qmin (Qabs d) c.
Proof.
  intros Hd Hc. apply Q.min_glb_lt; [|exact Hc].
  apply Qabs_case; intro; lra.
Qed.

(** One iteration on an array whose two largest entries have opposite
    signs keeps the ledger. *)
Lemma loopBody_ledgerOK (balances : list Balance) (ss : list Settlement) :
  (1 <? List.length balances)%nat = true ->
  oppositeSigns balances = true ->
  ledgerOK start balances ss ->
  ledgerOK start (fst (loopBody (balances, ss))) (snd (loopBody (balances, ss))).
Proof.
  intros Hlen Hopp Hok.
  apply (ledgerOK_perm start _ _ ss (Permutation_sym (sortBalances_perm balances))) in Hok.
  unfold oppositeSigns in Hopp. unfold loopBody.
  destruct (sortBalances balances) as [|b0 [|b1 rest]] eqn:E.
  - assert (L := Permutation_length (sortBalances_perm balances)). rewrite E in L.
    apply Nat.ltb_lt in Hlen. simpl in L. lia.
  - assert (L := Permutation_length (sortBalances_perm balances)). rewrite E in L.
    apply Nat.ltb_lt in Hlen. simpl in L. lia.
  - destruct Hok as (Hnd & Hin & Hout).
    destruct (Hin b0 (or_introl eq_refl)) as [C0 _].
    destruct (Hin b1 (or_intror (or_introl eq_refl))) as [C1 _].
    assert (Hok : ledgerOK start (b0 :: b1 :: rest) ss) by (repeat split; auto; apply Hin; auto).
    cbv zeta. unfold debtorIndex, creditorIndex.
    apply orb_true_iff in Hopp. destruct Hopp as [H | H];
      apply andb_true_iff in H; destruct H as [H0 H1].
    + (* b0 owes, b1 is owed *)
      assert (N : Qltb 0 (balance b0) = false).
      { apply Qltb_ge. apply Qltb_lt in H0. lra. }
      rewrite H0, N. cbn [nth setBalance].
      assert (Hpos : Qltb 0 (Qmin (Qabs (balance b0)) (balance b1)) = true).
      { apply Qltb_lt, min_abs_pos; apply Qltb_lt; assumption. }
      rewrite Hpos. cbn [fst snd].
      assert (Ca : isCents (Qmin (Qabs (balance b0)) (balance b1)))
        by (apply isCents_min; [apply isCents_abs|]; assumption).
      apply ledgerOK_filter.
      apply (ledgerOK_transfer start b0 b1 rest ss (Qmin (Qabs (balance b0)) (balance b1)));
        try assumption; apply toFixed2_cents;
        [| apply isCents_plus | apply isCents_minus]; assumption.
    + (* b0 is owed, b1 owes *)
      assert (N : Qltb (balance b0) 0 = false).
      { apply Qltb_ge. apply Qltb_lt in H0. lra. }
      rewrite H0, N. cbn [nth setBalance].
      assert (Hpos : Qltb 0 (Qmin (Qabs (balance b1)) (balance b0)) = true).
      { apply Qltb_lt, min_abs_pos; apply Qltb_lt; assumption. }
      rewrite Hpos. cbn [fst snd].
      assert (Ca : isCents (Qmin (Qabs (balance b1)) (balance b0)))
        by (apply isCents_min; [apply isCents_abs|]; assumption).
      apply ledgerOK_filter.
      apply (ledgerOK_perm start
               (withBalance b1 (toFixed2 (balance b1 + Qmin (Qabs (balance b1)) (balance b0)))
                :: withBalance b0 (toFixed2 (balance b0 - Qmin (Qabs (balance b1)) (balance b0)))
                :: rest)); [apply perm_swap|].
      apply (ledgerOK_transfer start b1 b0 rest ss (Qmin (Qabs (balance b1)) (balance b0)));
        try assumption;
        [ apply (ledgerOK_perm start (b0 :: b1 :: rest)); [apply perm_swap | exact Hok] | .. ];
        apply toFixed2_cents;
        [| apply isCents_plus | apply isCents_minus]; assumption.
Qed.


End OppositeSigns.


(** On [oneCent] buy-ins and cash-outs both total one cent, A is owed a
    cent by B, both balances are dropped by the filter, and no transfer is
    returned, so neither net position is zeroed. *)
Lemma one_cent_balances_are_not_zeroed :
  totalBuyIns (calculateTotals oneCent) == totalCashOuts (calculateTotals oneCent)
  /\ calculateSettlements 5 oneCent 0 = Some []
  /\ ~ (forall p, In p oneCent ->
          calculateNetAmount p + paid [] (id p) - received [] (id p) == 0).
Proof.
  split; [vm_compute; reflexivity|]. split; [vm_compute; reflexivity|].
  intro H. specialize (H (P "A" 0 0.01) (or_introl eq_refl)).
  vm_compute in H. discriminate.
Qed.

Lemma transfers_are_well_formed_witness :
  Forall wellFormed [T "A" "C" (10333 # 100); T "B" "C" (10333 # 100)].
Proof.
  apply (proj2 (transfers_are_well_formed example3 10
                  ltac:(repeat constructor; simpl; intuition discriminate)
                  ltac:(unfold Qle; simpl; lia)) 3%nat).
  vm_compute. reflexivity.
Defined.

(** ** Names in the settlements section of the report *)

(** The lookup of the settlements line has no fallback.  Were a transfer's
    payer (or payee) not among the players, the line would carry the word
    [undefined] in place of the name.  No transfer of the report is such a
    transfer ([transfers_name_known_players]): these lemmas are about the
    template alone. *)
Lemma missing_player_prints_undefined
  (formatGBP : Q -> string) (players : list Player) (s : Settlement) :
  (~ In (from s) (map id players) ->
     settlementLine formatGBP players s
     = ("- undefined pays " ++ findName players (to s) ++ ": " ++ formatGBP (amount s))%string)
  /\ (~ In (to s) (map id players) ->
     settlementLine formatGBP players s
     = ("- " ++ findName players (from s) ++ " pays undefined: " ++ formatGBP (amount s))%string).
Proof.
  assert (F : forall i, ~ In i (map id players) -> findName players i = "undefined"%string).
  { intros i Hi. unfold findName.
    destruct (find (fun p => String.eqb (id p) i) players) as [p|] eqn:E; [|reflexivity].
    apply find_some in E. destruct E as [Hp Heq]. apply String.eqb_eq in Heq.
    exfalso. apply Hi. rewrite <- Heq. apply in_map, Hp. }
  split; intro H; unfold settlementLine; rewrite (F _ H); reflexivity.
Qed.

Lemma missing_player_prints_undefined_witness :
  settlementLine (fun _ => "1.00"%string) [P "A" 0 0] (T "X" "A" 1)
  = "- undefined pays A: 1.00"%string.
Proof.
  apply (proj1 (missing_player_prints_undefined (fun _ => "1.00"%string)
                  [P "A" 0 0] (T "X" "A" 1))).
  simpl. intuition discriminate.
Defined.

(** On such a hand-made transfer the name printed is the nine-letter word,
    not the empty string that [Home.getPlayerName] gives. *)
Lemma missing_player_name_is_not_empty :
  findName [P "A" 0 0] "X" = "undefined"%string
  /\ findName [P "A" 0 0] "X" <> EmptyString
  /\ settlementLine (fun _ => "1.00"%string) [P "A" 0 0] (T "X" "A" 1)
     <> "-  pays A: 1.00"%string.
Proof.
  repeat split; vm_compute; discriminate.
Qed.

(** ** When every iteration pairs a debtor with a creditor *)

Section GreedyBound.

Lemma toFixed2_comp (x y : Q) : x == y -> toFixed2 x = toFixed2 y.
Proof.
  intro H. unfold toFixed2. f_equal. apply round_half_away_comp. rewrite H. reflexivity.
Qed.

Lemma settled_zero (b : Balance) (v : Q) :
  v == 0 -> unsettled (withBalance b (toFixed2 v)) = false.
Proof.
  intro H. unfold unsettled, withBalance. cbn [balance].
  rewrite (toFixed2_comp v 0 H). reflexivity.
Qed.

Lemma filter_drops_one (x y : Balance) (rest : list Balance) :
  unsettled x = false \/ unsettled y = false ->
  (List.length (filter unsettled (x :: y :: rest)) <= S (List.length rest))%nat.
Proof.
  intro H. assert (L := filter_length_le unsettled rest). cbn [filter].
  destruct (unsettled x) eqn:Ux, (unsettled y) eqn:Uy; cbn [List.length];
    try lia; destruct H; discriminate.
Qed.

(** The matched amount settles the debtor or the creditor in full. *)
Lemma match_settles_one (d c : Q) :
  d < 0 -> 0 < c -> d + Qmin (Qabs d) c == 0 \/ c - Qmin (Qabs d) c == 0.
Proof.
  intros Hd Hc. assert (E : Qabs d == - d) by (apply Qabs_neg; lra).
  destruct (Q.min_spec (Qabs d) c) as [[_ M] | [_ M]]; rewrite M; [left | right]; lra.
Qed.

(** Such an iteration pushes one transfer and removes at least one
    balance. *)
Lemma loopBody_opposite_shrinks (balances : list Balance) (ss : list Settlement) :
  (1 <? List.length balances)%nat = true ->
  oppositeSigns balances = true ->
  (List.length (fst (loopBody (balances, ss))) < List.length balances)%nat
  /\ List.length (snd (loopBody (balances, ss))) = S (List.length ss).
Proof.
  intros Hlen Hopp.
  assert (L := Permutation_length (sortBalances_perm balances)).
  unfold oppositeSigns in Hopp. unfold loopBody.
  destruct (sortBalances balances) as [|b0 [|b1 rest]] eqn:E;
    try (apply Nat.ltb_lt in Hlen; simpl in L; lia).
  cbv zeta. unfold debtorIndex, creditorIndex. simpl in L.
  apply orb_true_iff in Hopp. destruct Hopp as [H | H];
    apply andb_true_iff in H; destruct H as [H0 H1];
    apply Qltb_lt in H0; apply Qltb_lt in H1.
  - assert (N : Qltb 0 (balance b0) = false) by (apply Qltb_ge; lra).
    assert (Y : Qltb (balance b0) 0 = true) by (apply Qltb_lt; exact H0).
    rewrite Y, N. cbn [nth setBalance].
    assert (Hpos : Qltb 0 (Qmin (Qabs (balance b0)) (balance b1)) = true)
      by (apply Qltb_lt, min_abs_pos; assumption).
    rewrite Hpos. cbn [fst snd]. split; [|rewrite length_app; simpl; lia].
    rewrite <- L. apply Nat.lt_succ_r.
    apply (filter_drops_one (withBalance b0 _) (withBalance b1 _)).
    destruct (match_settles_one _ _ H0 H1) as [Z | Z]; [left | right];
      apply settled_zero, Z.
  - assert (N : Qltb (balance b0) 0 = false) by (apply Qltb_ge; lra).
    assert (Y : Qltb 0 (balance b0) = true) by (apply Qltb_lt; exact H0).
    rewrite Y, N. cbn [nth setBalance].
    assert (Hpos : Qltb 0 (Qmin (Qabs (balance b1)) (balance b0)) = true)
      by (apply Qltb_lt, min_abs_pos; assumption).
    rewrite Hpos. cbn [fst snd]. split; [|rewrite length_app; simpl; lia].
    rewrite <- L. apply Nat.lt_succ_r.
    apply (filter_drops_one (withBalance b0 _) (withBalance b1 _)).
    destruct (match_settles_one _ _ H1 H0) as [Z | Z]; [right | left];
      apply settled_zero, Z.
Qed.

Lemma loop_opposite_returns (n : nat) : forall st,
  (List.length (fst st) <= S n)%nat ->
  allOpposite n st = true ->
  exists r, loop n st = Some r
    /\ (List.length (snd r) <= List.length (snd st) + (List.length (fst st) - 1))%nat.
Proof.
  induction n as [|n IH]; intros st Hlen Hopp.
  - exists st. split; [|lia]. apply loop_exit. apply Nat.ltb_ge. lia.
  - simpl in Hopp. simpl loop.
    destruct (1 <? List.length (fst st))%nat eqn:L; [|exists st; split; [reflexivity | lia]].
    apply andb_true_iff in Hopp. destruct Hopp as [H1 H2].
    destruct st as [bal ss]. cbn [fst snd] in *.
    destruct (loopBody_opposite_shrinks bal ss L H1) as [S1 S2].
    destruct (IH (loopBody (bal, ss))) as [r [Hr Hb]]; [lia | exact H2 |].
    exists r. split; [exact Hr|]. apply Nat.ltb_lt in L. lia.
Qed.

End GreedyBound.

(** The greedy bound on the runs it holds for: if each of the first
    [playerCount] iterations pairs a negative with a positive balance, the
    function returns within that many iterations, with at most
    [playerCount - 1] transfers. *)
Theorem opposite_signs_give_greedy_bound (players : list Player) (imbalanceThreshold : Q) :
  allOpposite (List.length players) (startState players imbalanceThreshold) = true ->
  exists settlements,
    calculateSettlements (List.length players) players imbalanceThreshold = Some settlements
    /\ (List.length settlements <= List.length players - 1)%nat.
Proof.
  intro Hopp. unfold calculateSettlements, runSettlements.
  destruct (exceedsThreshold players imbalanceThreshold).
  - exists []. split; [reflexivity | simpl; lia].
  - assert (Hlen : (List.length (fst (startState players imbalanceThreshold))
                    <= List.length players)%nat).
    { unfold startState, initialBalances. cbn [fst].
      etransitivity; [apply filter_length_le|].
      rewrite <- (length_map id players), <- (allBalances_ids players imbalanceThreshold),
        length_map. reflexivity. }
    destruct (loop_opposite_returns (List.length players) _ (Nat.le_trans _ _ _ Hlen (Nat.le_succ_diag_r _)) Hopp)
      as [r [Hr Hb]].
    rewrite Hr. exists (snd r). split; [reflexivity|].
    unfold startState in Hb, Hlen. cbn [fst snd List.length] in Hb, Hlen. lia.
Qed.

(** ** Transfers name players of the list *)

Section KnownPlayers.

Variable ids : list string.

Lemma loopBody_known (st : LoopState) :
  incl (map bal_id (fst st)) ids /\ Forall (knownParties ids) (snd st) ->
  incl (map bal_id (fst (loopBody st))) ids /\ Forall (knownParties ids) (snd (loopBody st)).
Proof.
  destruct st as [bal ss]. cbn [fst snd]. intros [Hin Hk].
  assert (Hp := sortBalances_perm bal).
  unfold loopBody.
  destruct (sortBalances bal) as [|b0 [|b1 rest]] eqn:E; try (split; assumption).
  assert (Hs : incl (map bal_id (b0 :: b1 :: rest)) ids).
  { intros i Hi. apply Hin. eapply Permutation_in; [apply Permutation_map, Hp | exact Hi]. }
  cbv zeta. cbn [fst snd]. split.
  - intros i Hi. apply in_map_iff in Hi. destruct Hi as [b [<- Hb]].
    apply filter_In in Hb. destruct Hb as [Hb _].
    apply Hs. apply (in_map bal_id) in Hb. rewrite !setBalance_ids in Hb. exact Hb.
  - match goal with |- Forall _ (if ?c then _ else _) => destruct c end; [|exact Hk].
    apply Forall_app. split; [exact Hk|].
    apply Forall_cons; [|apply Forall_nil].
    assert (H0 : In (bal_id b0) ids) by (apply Hs; left; reflexivity).
    assert (H1 : In (bal_id b1) ids) by (apply Hs; right; left; reflexivity).
    unfold knownParties, debtorIndex, creditorIndex. cbn [from to].
    destruct (Qltb (balance b0) 0), (Qltb 0 (balance b0)); cbn [nth]; split; assumption.
Qed.

Lemma iterate_known (n : nat) : forall st,
  incl (map bal_id (fst st)) ids /\ Forall (knownParties ids) (snd st) ->
  incl (map bal_id (fst (iterate n st))) ids
  /\ Forall (knownParties ids) (snd (iterate n st)).
Proof.
  induction n as [|n IH]; intros st H; simpl; [exact H|].
  destruct (1 <? List.length (fst st))%nat; [apply IH, loopBody_known, H | exact H].
Qed.

End KnownPlayers.

(** Payer and payee of a returned transfer are identifiers of the player
    list, so the name look-ups of the report, which takes its transfers
    from [calculateSettlements] on the same list, always find a player. *)
Theorem transfers_name_known_players
  (fuel : nat) (players : list Player) (imbalanceThreshold : Q)
  (settlements : list Settlement) :
  calculateSettlements fuel players imbalanceThreshold = Some settlements ->
  Forall (knownParties (map id players)) settlements.
Proof.
  unfold calculateSettlements, runSettlements.
  destruct (exceedsThreshold players imbalanceThreshold); simpl.
  - intro H. injection H as <-. constructor.
  - destruct (loop fuel _) as [r|] eqn:E; [|discriminate].
    simpl. intro H. injection H as <-. rewrite (loop_iterate _ _ _ E).
    apply iterate_known. unfold startState, initialBalances. cbn [fst snd].
    split; [|constructor].
    intros i Hi. apply in_map_iff in Hi. destruct Hi as [b [<- Hb]].
    apply filter_In in Hb. destruct Hb as [Hb _].
    rewrite <- (allBalances_ids players imbalanceThreshold). apply in_map, Hb.
Qed.

(** ** Starting balances and net positions *)

(** When the totals are equal and a player's amounts are in whole
    hundredths, the balance the engine starts from for that player is the
    net position, cash-out minus buy-in. *)
Lemma allBalances_net (players : list Player) (imbalanceThreshold : Q) (p : Player) :
  NoDup (map id players) -> In p players ->
  imbalanceOf players == 0 ->
  isCents (buyIn p) -> isCents (cashOut p) ->
  balanceOf (allBalances players imbalanceThreshold) (id p) == calculateNetAmount p.
Proof.
  intros Hnd Hp Hz Cb Cc.
  assert (Hnd' : NoDup (map bal_id (allBalances players imbalanceThreshold)))
    by (rewrite allBalances_ids; exact Hnd).
  assert (Net : toFixed2 (cashOut p - buyIn p) == cashOut p - buyIn p)
    by (apply toFixed2_cents, isCents_minus; assumption).
  unfold calculateNetAmount. revert Hnd'. unfold allBalances, adjustPlayers. cbv zeta.
  destruct (_ && _); intro Hnd'.
  - set (adj := fun player : Player =>
                  {| id := id player; name := name player; buyIn := buyIn player;
                     cashOut := toFixed2 (cashOut player
                                  - imbalanceOf players
                                    / inject_Z (Z.of_nat (List.length players))) |}) in *.
    change (id p) with (bal_id (toBalance (adj p))).
    rewrite (balanceOf_In _ (toBalance (adj p)) Hnd') by (apply in_map, in_map, Hp).
    cbn [balance toBalance adj cashOut buyIn].
    assert (E : cashOut p - imbalanceOf players / inject_Z (Z.of_nat (List.length players))
                == cashOut p).
    { rewrite Hz. unfold Qdiv. ring. }
    rewrite (toFixed2_comp _ _ E).
    assert (E2 : toFixed2 (cashOut p) - buyIn p == cashOut p - buyIn p)
      by (rewrite (toFixed2_cents _ Cc); reflexivity).
    rewrite (toFixed2_comp _ _ E2). exact Net.
  - change (id p) with (bal_id (toBalance p)).
    rewrite (balanceOf_In _ (toBalance p) Hnd') by (apply in_map, Hp).
    exact Net.
Qed.

(** ** Rounding to hundredths *)

Section Rounding.

Lemma round_half_away_error (x : Q) : Qabs (inject_Z (round_half_away x) - x) <= 1 # 2.
Proof.
  unfold round_half_away. destruct (Qle_bool 0 x) eqn:E.
  - assert (L := Qfloor_le (x + (1 # 2))). assert (U := Qlt_floor (x + (1 # 2))).
    rewrite inject_Z_plus in U. change (inject_Z 1) with 1 in U.
    apply Qabs_case; intros _; lra.
  - assert (L := Qfloor_le (- x + (1 # 2))). assert (U := Qlt_floor (- x + (1 # 2))).
    rewrite inject_Z_plus in U. change (inject_Z 1) with 1 in U.
    rewrite inject_Z_opp. apply Qabs_case; intros _; lra.
Qed.

Lemma toFixed2_as_product (x : Q) :
  toFixed2 x == inject_Z (round_half_away (x * 100)) * (1 # 100).
Proof.
  unfold toFixed2. generalize (round_half_away (x * 100)). intro n.
  unfold Qeq, Qmult, inject_Z. simpl. lia.
Qed.

Lemma toFixed2_error (x : Q) : Qabs (toFixed2 x - x) <= 1 # 200.
Proof.
  assert (H := round_half_away_error (x * 100)).
  rewrite toFixed2_as_product.
  revert H. generalize (inject_Z (round_half_away (x * 100))). intros n H.
  revert H. apply Qabs_case; intros S H; apply Qabs_case; intros _; lra.
Qed.

Lemma toFixed2_idempotent (x : Q) : toFixed2 (toFixed2 x) = toFixed2 x.
Proof.
  unfold toFixed2 at 1.
  rewrite (round_half_away_comp _ (inject_Z (round_half_away (x * 100))));
    [rewrite round_half_away_Z; reflexivity|].
  apply cents_scaled. reflexivity.
Qed.

(** An amount of at most half a hundredth rounds to at most one hundredth. *)
Lemma toFixed2_small (y : Q) : Qabs y <= 1 # 200 -> Qabs (toFixed2 y) <= cent.
Proof.
  intro H. assert (E := toFixed2_error y).
  unfold cent. revert H E.
  apply Qabs_case; intros S1 H; apply Qabs_case; intros S2 E; apply Qabs_case; intros _; lra.
Qed.

End Rounding.

(** [Number(x.toFixed(2))] moves [x] by at most half a hundredth, and
    rounding a second time changes nothing. *)
Theorem toFixed2_error_and_idempotence (x : Q) :
  Qabs (toFixed2 x - x) <= 1 # 200 /\ toFixed2 (toFixed2 x) = toFixed2 x.
Proof. split; [apply toFixed2_error | apply toFixed2_idempotent]. Qed.

(** ** The sort *)

Section Sort.

Lemma insertBalance_sorted (x : Balance) (l : list Balance) :
  StronglySorted descendingMagnitude l ->
  StronglySorted descendingMagnitude (insertBalance x l).
Proof.
  induction l as [|y l IH]; intro H; simpl.
  - constructor; constructor.
  - inversion H as [|? ? Hl Hy]; subst.
    destruct (Qle_bool (Qabs (balance y)) (Qabs (balance x))) eqn:E.
    + apply Qle_bool_iff in E. constructor; [exact H|].
      constructor; [exact E|].
      eapply Forall_impl; [|exact Hy]. intros z Hz. unfold descendingMagnitude in *. lra.
    + assert (Hlt : Qabs (balance x) < Qabs (balance y)).
      { apply Qnot_le_lt. intro Hle. apply Qle_bool_iff in Hle. congruence. }
      constructor; [apply IH, Hl|].
      eapply Permutation_Forall; [apply Permutation_sym, insertBalance_perm|].
      constructor; [|exact Hy]. unfold descendingMagnitude. lra.
Qed.

Lemma insertBalance_stable (m : Q) (x : Balance) (l : list Balance) :
  ofMagnitude m (insertBalance x l) = ofMagnitude m (x :: l).
Proof.
  unfold ofMagnitude. induction l as [|y l IH]; [reflexivity|].
  cbn [insertBalance].
  destruct (Qle_bool (Qabs (balance y)) (Qabs (balance x))) eqn:E; [reflexivity|].
  cbn [filter] in *. rewrite IH.
  destruct (Qeq_bool (Qabs (balance x)) m) eqn:Ex; [|reflexivity].
  destruct (Qeq_bool (Qabs (balance y)) m) eqn:Ey; [|reflexivity].
  apply Qeq_bool_iff in Ex. apply Qeq_bool_iff in Ey.
  assert (Hle : Qabs (balance y) <= Qabs (balance x)) by (rewrite Ex, Ey; apply Qle_refl).
  apply Qle_bool_iff in Hle. congruence.
Qed.

End Sort.

(** The array after [balances.sort(...)]: the same entries, in descending
    order of magnitude, entries of equal magnitude in the order they had
    before. *)
Theorem sortBalances_is_a_stable_descending_sort (l : list Balance) :
  Permutation (sortBalances l) l
  /\ StronglySorted descendingMagnitude (sortBalances l)
  /\ forall m, ofMagnitude m (sortBalances l) = ofMagnitude m l.
Proof.
  split; [apply sortBalances_perm|]. split.
  - induction l as [|x l IH]; simpl; [constructor | apply insertBalance_sorted, IH].
  - intro m. induction l as [|x l IH]; [reflexivity|].
    change (sortBalances (x :: l)) with (insertBalance x (sortBalances l)).
    rewrite insertBalance_stable. unfold ofMagnitude in *. cbn [filter]. rewrite IH.
    reflexivity.
Qed.

(** ** Ledgers with nothing to settle *)

Section NothingToSettle.

Lemma initialBalances_length (players : list Player) (imbalanceThreshold : Q) :
  (List.length (initialBalances players imbalanceThreshold) <= List.length players)%nat.
Proof.
  unfold initialBalances. etransitivity; [apply filter_length_le|].
  rewrite <- (length_map id players), <- (allBalances_ids players imbalanceThreshold),
    length_map. reflexivity.
Qed.

Lemma filter_none {A : Type} (p : A -> bool) (l : list A) :
  (forall x, In x l -> p x = false) -> filter p l = [].
Proof.
  induction l as [|x l IH]; intro H; [reflexivity|]. simpl.
  rewrite (H x (or_introl eq_refl)). apply IH. intros y Hy. apply H. right. exact Hy.
Qed.

Lemma totals_of_even_players (players : list Player) :
  (forall p, In p players -> cashOut p = buyIn p) ->
  forall acc, totalCashOuts acc = totalBuyIns acc ->
  totalCashOuts (fold_left
                   (fun acc player =>
                      {| totalBuyIns := totalBuyIns acc + buyIn player;
                         totalCashOuts := totalCashOuts acc + cashOut player |})
                   players acc)
  = totalBuyIns (fold_left
                   (fun acc player =>
                      {| totalBuyIns := totalBuyIns acc + buyIn player;
                         totalCashOuts := totalCashOuts acc + cashOut player |})
                   players acc).
Proof.
  induction players as [|p l IH]; intros H acc E; [exact E|].
  simpl. apply IH.
  - intros q Hq. apply H. right. exact Hq.
  - simpl. rewrite E, (H p (or_introl eq_refl)). reflexivity.
Qed.

End NothingToSettle.

(** With no player or a single player the result is the empty list,
    whatever the threshold and however the amounts stand. *)
Theorem at_most_one_player_gives_no_transfer
  (fuel : nat) (players : list Player) (imbalanceThreshold : Q) :
  (List.length players <= 1)%nat ->
  calculateSettlements fuel players imbalanceThreshold = Some [].
Proof.
  intro H. unfold calculateSettlements, runSettlements.
  destruct (exceedsThreshold players imbalanceThreshold); [reflexivity|].
  rewrite loop_exit; [reflexivity|].
  apply Nat.ltb_ge. unfold startState. cbn [fst].
  etransitivity; [apply initialBalances_length | exact H].
Qed.

Lemma at_most_one_player_gives_no_transfer_witness :
  calculateSettlements 0 [P "A" 100 250] 1000 = Some [].
Proof. apply at_most_one_player_gives_no_transfer. simpl. lia. Defined.

(** When every player cashes out exactly the buy-in, the result is the
    empty list, for every threshold and any amounts, whole hundredths or
    not. *)
Theorem even_players_give_no_transfer
  (fuel : nat) (players : list Player) (imbalanceThreshold : Q) :
  (forall p, In p players -> cashOut p = buyIn p) ->
  calculateSettlements fuel players imbalanceThreshold = Some [].
Proof.
  intro H. unfold calculateSettlements, runSettlements.
  destruct (exceedsThreshold players imbalanceThreshold); [reflexivity|].
  assert (Z : imbalanceOf players == 0).
  { unfold imbalanceOf, calculateTotals. cbv zeta.
    rewrite (totals_of_even_players players H {| totalBuyIns := 0; totalCashOuts := 0 |}
               eq_refl). ring. }
  assert (E : initialBalances players imbalanceThreshold = []).
  { unfold initialBalances. apply filter_none. intros b Hb.
    unfold unsettled. apply Qltb_ge.
    unfold allBalances, adjustPlayers in Hb. cbv zeta in Hb.
    destruct (_ && _) in Hb.
    - rewrite map_map in Hb. apply in_map_iff in Hb. destruct Hb as [p [<- Hp]].
      cbn [toBalance balance cashOut buyIn].
      assert (A : cashOut p - imbalanceOf players / inject_Z (Z.of_nat (List.length players))
                  == cashOut p) by (rewrite Z; unfold Qdiv; ring).
      rewrite (toFixed2_comp _ _ A). apply toFixed2_small.
      rewrite <- (H p Hp). apply toFixed2_error.
    - apply in_map_iff in Hb. destruct Hb as [p [<- Hp]].
      cbn [toBalance balance]. apply toFixed2_small.
      rewrite (H p Hp).
      setoid_replace (buyIn p - buyIn p) with 0 by ring. vm_compute. discriminate. }
  unfold startState. rewrite E. rewrite loop_exit; reflexivity.
Qed.

Lemma even_players_give_no_transfer_witness :
  calculateSettlements 0 [P "A" (1 # 3) (1 # 3); P "B" 20.005 20.005; P "C" 7 7] 0 = Some [].
Proof.
  apply even_players_give_no_transfer.
  intros p [<- | [<- | [<- | []]]]; reflexivity.
Defined.

(** ** The threshold beyond the imbalance *)

(** Two thresholds that both let the ledger through give the same result: once
    the imbalance is within the threshold, the threshold plays no further
    part. *)
Theorem thresholds_within_reach_agree
  (fuel : nat) (players : list Player) (threshold1 threshold2 : Q) :
  exceedsThreshold players threshold1 = false ->
  exceedsThreshold players threshold2 = false ->
  calculateSettlements fuel players threshold1 = calculateSettlements fuel players threshold2.
Proof.
  intros H1 H2. unfold calculateSettlements, runSettlements. rewrite H1, H2.
  assert (A : adjustPlayers players threshold1 = adjustPlayers players threshold2).
  { unfold adjustPlayers. cbv zeta.
    unfold exceedsThreshold in H1, H2. apply Qltb_ge in H1. apply Qltb_ge in H2.
    apply Qle_bool_iff in H1. apply Qle_bool_iff in H2. rewrite H1, H2. reflexivity. }
  unfold startState, initialBalances, allBalances. rewrite A. reflexivity.
Qed.

Lemma thresholds_within_reach_agree_witness :
  calculateSettlements 5 example3 10 = calculateSettlements 5 example3 250.
Proof. apply thresholds_within_reach_agree; vm_compute; reflexivity. Defined.

(** ** No transfer of a cent or less *)

Section AboveOneCent.

Lemma setBalance_cents (i : nat) (v : Q) (l : list Balance) :
  isCents v ->
  Forall (fun b => isCents (balance b)) l ->
  Forall (fun b => isCents (balance b)) (setBalance i v l).
Proof.
  intros Hv. revert i. induction l as [|b l IH]; intros i H; destruct i; simpl;
    try constructor; inversion H; subst; auto.
Qed.

Lemma filter_unsettled_cents (l : list Balance) :
  Forall (fun b => isCents (balance b)) l ->
  Forall (fun b => isCents (balance b) /\ unsettled b = true) (filter unsettled l).
Proof.
  intro H. apply Forall_forall. intros b Hb. apply filter_In in Hb. destruct Hb as [Hb U].
  split; [|exact U]. rewrite Forall_forall in H. apply H, Hb.
Qed.

Lemma loopBody_centsOK (st : LoopState) : centsOK st -> centsOK (loopBody st).
Proof.
  destruct st as [bal ss]. intros [Hb Hs]. cbn [fst snd] in *.
  assert (Hp := sortBalances_perm bal). unfold loopBody.
  destruct (sortBalances bal) as [|b0 [|b1 rest]] eqn:E; try (split; assumption).
  assert (Hb' : Forall (fun b => isCents (balance b) /\ unsettled b = true) (b0 :: b1 :: rest)).
  { eapply Permutation_Forall; [apply Permutation_sym, Hp | exact Hb]. }
  assert (Hc : Forall (fun b => isCents (balance b)) (b0 :: b1 :: rest)).
  { eapply Forall_impl; [|exact Hb']. intros b [Cb _]. exact Cb. }
  inversion Hb' as [|? ? [C0 U0] Hb'']; subst. inversion Hb'' as [|? ? [C1 U1] _]; subst.
  cbv zeta. split; cbn [fst snd].
  - apply filter_unsettled_cents.
    apply setBalance_cents; [apply toFixed2_isCents|].
    apply setBalance_cents; [apply toFixed2_isCents | exact Hc].
  - unfold debtorIndex, creditorIndex.
    destruct (Qltb (balance b0) 0), (Qltb 0 (balance b0)); cbn [nth];
      match goal with |- Forall _ (if ?c then _ else _) => destruct c eqn:Ha end;
      try exact Hs.
    all: apply Forall_app; split; [exact Hs|].
    all: apply Forall_cons; [|apply Forall_nil].
    all: apply Qltb_lt in Ha.
    all: match goal with
         | |- aboveOneCent {| from := _; to := _; amount := toFixed2 (Qmin (Qabs (balance ?d)) (balance ?c)) |} =>
             assert (Ca : isCents (Qmin (Qabs (balance d)) (balance c)))
               by (apply isCents_min; [apply isCents_abs|]; assumption);
             assert (Hgt : cent < Qmin (Qabs (balance d)) (balance c))
               by (apply amount_above_cent; assumption)
         end.
    all: split; cbn [amount]; [apply toFixed2_isCents|].
    all: rewrite (toFixed2_cents _ Ca); exact Hgt.
Qed.

Lemma iterate_centsOK (n : nat) : forall st, centsOK st -> centsOK (iterate n st).
Proof.
  induction n as [|n IH]; intros st H; simpl; [exact H|].
  destruct (1 <? List.length (fst st))%nat; [apply IH, loopBody_centsOK, H | exact H].
Qed.

Lemma startState_centsOK (players : list Player) (imbalanceThreshold : Q) :
  centsOK (startState players imbalanceThreshold).
Proof.
  unfold startState, initialBalances. split; cbn [fst snd]; [|constructor].
  apply filter_unsettled_cents. apply Forall_forall. intros b Hb.
  apply (allBalances_cents players imbalanceThreshold b Hb).
Qed.

End AboveOneCent.

(** Every transfer pushed by the loop, and so every transfer returned, is
    a whole number of hundredths and more than one hundredth: there is no
    transfer of a cent or less, and none with a fraction of a cent.  This
    needs no assumption on the players or on the signs the loop meets. *)
Theorem transfers_exceed_one_cent (players : list Player) (imbalanceThreshold : Q) :
  (forall n, Forall aboveOneCent (snd (iterate n (startState players imbalanceThreshold))))
  /\ (forall fuel settlements,
        calculateSettlements fuel players imbalanceThreshold = Some settlements ->
        Forall aboveOneCent settlements).
Proof.
  split.
  - intro n. apply (iterate_centsOK n _ (startState_centsOK players imbalanceThreshold)).
  - intros fuel ss. unfold calculateSettlements, runSettlements.
    destruct (exceedsThreshold players imbalanceThreshold); simpl.
    + intro H. injection H as <-. constructor.
    + destruct (loop fuel _) as [r|] eqn:E; [|discriminate].
      simpl. intro H. injection H as <-. rewrite (loop_iterate _ _ _ E).
      apply (iterate_centsOK fuel _ (startState_centsOK players imbalanceThreshold)).
Qed.

Lemma transfers_exceed_one_cent_witness :
  Forall aboveOneCent [T "A" "C" (10333 # 100); T "B" "C" (10333 # 100)].
Proof.
  apply (proj2 (transfers_exceed_one_cent example3 10) 3%nat). vm_compute. reflexivity.
Defined.

(** ** Who pays and who receives when signs are opposite *)

Section Sides.

Variable start : list Balance.

(** The transfer pushed by an iteration whose two largest balances have
    opposite signs. *)
Lemma loopBody_opposite_transfer (balances : list Balance) (ss : list Settlement) :
  (1 <? List.length balances)%nat = true ->
  oppositeSigns balances = true ->
  exists d c,
    In d balances /\ In c balances /\ balance d < 0 /\ 0 < balance c
    /\ snd (loopBody (balances, ss))
       = ss ++ [ {| from := bal_id d; to := bal_id c;
                    amount := toFixed2 (Qmin (Qabs (balance d)) (balance c)) |} ].
Proof.
  intros Hlen Hopp.
  assert (Hp := sortBalances_perm balances).
  assert (L := Permutation_length Hp).
  unfold oppositeSigns in Hopp. unfold loopBody.
  destruct (sortBalances balances) as [|b0 [|b1 rest]] eqn:E;
    try (apply Nat.ltb_lt in Hlen; simpl in L; lia).
  assert (I0 : In b0 balances) by (eapply Permutation_in; [exact Hp | left; reflexivity]).
  assert (I1 : In b1 balances)
    by (eapply Permutation_in; [exact Hp | right; left; reflexivity]).
  cbv zeta. unfold debtorIndex, creditorIndex.
  apply orb_true_iff in Hopp. destruct Hopp as [H | H];
    apply andb_true_iff in H; destruct H as [H0 H1];
    apply Qltb_lt in H0; apply Qltb_lt in H1.
  - assert (N : Qltb 0 (balance b0) = false) by (apply Qltb_ge; lra).
    assert (Y : Qltb (balance b0) 0 = true) by (apply Qltb_lt; exact H0).
    rewrite Y, N. cbn [nth].
    assert (Hpos : Qltb 0 (Qmin (Qabs (balance b0)) (balance b1)) = true)
      by (apply Qltb_lt, min_abs_pos; assumption).
    rewrite Hpos. exists b0, b1. repeat split; assumption || reflexivity.
  - assert (N : Qltb (balance b0) 0 = false) by (apply Qltb_ge; lra).
    assert (Y : Qltb 0 (balance b0) = true) by (apply Qltb_lt; exact H0).
    rewrite Y, N. cbn [nth].
    assert (Hpos : Qltb 0 (Qmin (Qabs (balance b1)) (balance b0)) = true)
      by (apply Qltb_lt, min_abs_pos; assumption).
    rewrite Hpos. exists b1, b0. repeat split; assumption || reflexivity.
Qed.

Lemma sidesOK_transfer (ss : list Settlement) (d c : Balance) (a : Q) :
  sidesOK start ss ->
  residual start ss (bal_id d) == balance d -> residual start ss (bal_id c) == balance c ->
  balance d < 0 -> 0 < balance c ->
  0 < a -> a <= - balance d -> a <= balance c ->
  sidesOK start (ss ++ [ {| from := bal_id d; to := bal_id c; amount := a |} ]).
Proof.
  intros Hs Rd Rc Hd Hc Ha Had Hac i.
  destruct (Hs i) as (P0 & R0 & Hpos & Hneg).
  rewrite paid_push, received_push, residual_push. cbn [from to amount].
  destruct (String.eqb (bal_id d) i) eqn:Ed, (String.eqb (bal_id c) i) eqn:Ec.
  - apply String.eqb_eq in Ed. apply String.eqb_eq in Ec. subst i.
    rewrite Ec in Rc. rewrite Rd in Rc. lra.
  - apply String.eqb_eq in Ed. subst i. rewrite Rd in *.
    split; [lra|]. split; [lra|].
    split; intro Hi; [destruct (Hpos Hi) | destruct (Hneg Hi)]; split; lra.
  - apply String.eqb_eq in Ec. subst i. rewrite Rc in *.
    split; [lra|]. split; [lra|].
    split; intro Hi; [destruct (Hpos Hi) | destruct (Hneg Hi)]; split; lra.
  - split; [lra|]. split; [lra|].
    split; intro Hi; [destruct (Hpos Hi) | destruct (Hneg Hi)]; split; lra.
Qed.

Lemma sidesOK_start : sidesOK start [].
Proof.
  intro i. unfold residual. simpl. repeat split; try lra; intro; lra.
Qed.

Lemma loop_sidesOK (fuel : nat) : forall st r,
  ledgerOK start (fst st) (snd st) ->
  sidesOK start (snd st) ->
  allOpposite fuel st = true ->
  loop fuel st = Some r ->
  sidesOK start (snd r).
Proof.
  induction fuel as [|fuel IH]; intros st r Hok Hs Hopp Hrun; simpl in *.
  - destruct (1 <? List.length (fst st))%nat; [discriminate|]. injection Hrun as <-. exact Hs.
  - destruct (1 <? List.length (fst st))%nat eqn:L; [|injection Hrun as <-; exact Hs].
    apply andb_true_iff in Hopp. destruct Hopp as [H1 H2].
    destruct st as [bal ss]. cbn [fst snd] in *.
    apply (IH (loopBody (bal, ss))); try assumption.
    + apply loopBody_ledgerOK; assumption.
    + destruct (loopBody_opposite_transfer bal ss L H1) as (d & c & Id & Ic & Hd & Hc & E).
      rewrite E. destruct Hok as (_ & Hin & _).
      destruct (Hin d Id) as [Cd Rd]. destruct (Hin c Ic) as [Cc Rc].
      assert (Ca : isCents (Qmin (Qabs (balance d)) (balance c)))
        by (apply isCents_min; [apply isCents_abs|]; assumption).
      assert (Ea := toFixed2_cents _ Ca).
      assert (M1 := Q.le_min_l (Qabs (balance d)) (balance c)).
      assert (M2 := Q.le_min_r (Qabs (balance d)) (balance c)).
      assert (M0 := min_abs_pos _ _ Hd Hc).
      assert (Eabs : Qabs (balance d) == - balance d) by (apply Qabs_neg; lra).
      apply sidesOK_transfer; try assumption; rewrite Ea; lra.
Qed.

End Sides.

(** On the runs of the amended first claim (unique identifiers, imbalance
    within the threshold, a negative and a positive balance paired at every
    iteration, the loop returning), relative to the balance the engine
    starts from for a player: a player who owes pays at most that deficit
    and receives nothing, and a player who is owed receives at most that
    surplus and pays nothing. *)
Theorem opposite_signs_keep_payers_within_deficit
  (fuel : nat) (players : list Player) (imbalanceThreshold : Q)
  (settlements : list Settlement) :
  NoDup (map id players) ->
  exceedsThreshold players imbalanceThreshold = false ->
  allOpposite fuel (startState players imbalanceThreshold) = true ->
  calculateSettlements fuel players imbalanceThreshold = Some settlements ->
  forall p, In p players ->
    let start := balanceOf (allBalances players imbalanceThreshold) (id p) in
    (start <= 0 ->
       received settlements (id p) == 0
       /\ 0 <= paid settlements (id p) /\ paid settlements (id p) <= - start)
    /\ (0 <= start ->
       paid settlements (id p) == 0
       /\ 0 <= received settlements (id p) /\ received settlements (id p) <= start).
Proof.
  intros Hnd Hguard Hopp Hrun p Hp.
  unfold calculateSettlements, runSettlements in Hrun. rewrite Hguard in Hrun.
  destruct (loop fuel _) as [[bal ss]|] eqn:E; [|discriminate].
  simpl in Hrun. injection Hrun as ->.
  set (start := allBalances players imbalanceThreshold) in *.
  assert (H0 : ledgerOK start (fst (startState players imbalanceThreshold))
                        (snd (startState players imbalanceThreshold))).
  { unfold startState, initialBalances. cbn [fst snd]. apply ledgerOK_filter.
    apply ledgerOK_start.
    - unfold start. rewrite allBalances_ids. exact Hnd.
    - intros b Hb. apply (allBalances_cents players imbalanceThreshold b Hb). }
  assert (Hs := loop_sidesOK start fuel _ _ H0 (sidesOK_start start) Hopp E).
  cbn [snd] in Hs. destruct (Hs (id p)) as (P0 & R0 & Hpos & Hneg).
  unfold residual in Hpos, Hneg. cbv zeta. split; intro Hi.
  - destruct (Hneg Hi) as [Z R]. repeat split; [exact Z | exact P0 | lra].
  - destruct (Hpos Hi) as [Z R]. repeat split; [exact Z | exact R0 | lra].
Qed.

Lemma opposite_signs_keep_payers_within_deficit_witness :
  received [T "A" "C" (10333 # 100); T "B" "C" (10333 # 100)] "A" == 0
  /\ 0 <= paid [T "A" "C" (10333 # 100); T "B" "C" (10333 # 100)] "A"
  /\ paid [T "A" "C" (10333 # 100); T "B" "C" (10333 # 100)] "A"
     <= - balanceOf (allBalances example3 10) "A".
Proof.
  apply (opposite_signs_keep_payers_within_deficit 3 example3 10
           [T "A" "C" (10333 # 100); T "B" "C" (10333 # 100)]) with (p := P "A" 100 0).
  - repeat constructor; simpl; intuition discriminate.
  - vm_compute. reflexivity.
  - vm_compute. reflexivity.
  - vm_compute. reflexivity.
  - left. reflexivity.
  - vm_compute. discriminate.
Defined.

(** ** Two players *)

Section TwoPlayers.

(** With equal totals, the balance the engine starts from for a player
    with whole-hundredth amounts is the player's net position. *)
Lemma allBalances_entries (players : list Player) (imbalanceThreshold : Q) :
  imbalanceOf players == 0 ->
  Forall2 (fun p b =>
             bal_id b = id p
             /\ (isCents (buyIn p) -> isCents (cashOut p) ->
                 balance b == calculateNetAmount p))
          players (allBalances players imbalanceThreshold).
Proof.
  intro Hz. unfold allBalances, adjustPlayers. cbv zeta.
  destruct (_ && _).
  - rewrite map_map.
    set (adjustment := imbalanceOf players / inject_Z (Z.of_nat (List.length players))).
    assert (Ha : adjustment == 0) by (unfold adjustment; rewrite Hz; unfold Qdiv; ring).
    clearbody adjustment. clear Hz.
    induction players as [|p l IH]; [constructor|].
    cbn [map]. constructor; [|exact IH].
    split; [reflexivity|]. intros Cb Cc. unfold calculateNetAmount.
    cbn [toBalance balance cashOut buyIn].
    assert (E : cashOut p - adjustment == cashOut p) by (rewrite Ha; ring).
    rewrite (toFixed2_comp _ _ E).
    assert (E2 : toFixed2 (cashOut p) - buyIn p == cashOut p - buyIn p)
      by (rewrite (toFixed2_cents _ Cc); reflexivity).
    rewrite (toFixed2_comp _ _ E2). apply toFixed2_cents, isCents_minus; assumption.
  - clear Hz. induction players as [|p l IH]; [constructor|].
    cbn [map]. constructor; [|exact IH].
    split; [reflexivity|]. intros Cb Cc. unfold calculateNetAmount.
    cbn [toBalance balance].
    apply toFixed2_cents, isCents_minus; assumption.
Qed.

Lemma oppositeSigns_pair (x y : Balance) :
  (balance x < 0 /\ 0 < balance y) \/ (0 < balance x /\ balance y < 0) ->
  oppositeSigns [x; y] = true.
Proof.
  intro H. unfold oppositeSigns, sortBalances. simpl.
  destruct (Qle_bool (Qabs (balance y)) (Qabs (balance x)));
    apply orb_true_iff; destruct H as [[H1 H2] | [H1 H2]];
    apply Qltb_lt in H1; apply Qltb_lt in H2; rewrite H1, H2; auto.
Qed.

(** Two surviving balances of opposite signs are settled by one
    iteration. *)
Lemma loop_pair (fuel : nat) (x y : Balance) :
  (balance x < 0 /\ 0 < balance y) \/ (0 < balance x /\ balance y < 0) ->
  exists d c,
    In d [x; y] /\ In c [x; y] /\ balance d < 0 /\ 0 < balance c
    /\ option_map snd (loop (S fuel) ([x; y], []))
       = Some [ {| from := bal_id d; to := bal_id c;
                   amount := toFixed2 (Qmin (Qabs (balance d)) (balance c)) |} ].
Proof.
  intro H. assert (Ho := oppositeSigns_pair x y H).
  destruct (loopBody_opposite_transfer [x; y] [] eq_refl Ho) as (d & c & Id & Ic & Hd & Hc & E).
  destruct (loopBody_opposite_shrinks [x; y] [] eq_refl Ho) as [S1 _].
  exists d, c. repeat split; try assumption.
  change (loop (S fuel) ([x; y], [])) with (loop fuel (loopBody ([x; y], []))).
  rewrite loop_exit; [cbn [option_map]; rewrite E; reflexivity|].
  apply Nat.ltb_ge. change (List.length [x; y]) with 2%nat in S1. lia.
Qed.

End TwoPlayers.

(** Two players with amounts in whole hundredths whose net positions are
    opposite, one ahead by more than a cent, and a threshold of at least a
    cent: whichever of the two comes first in the list, the result is the
    single transfer of the winner's net position from the loser to the
    winner.  (With a threshold under a cent the program can refuse such a
    ledger, because its sums of the entered amounts can differ in the last
    binary digit.) *)
Theorem two_players_settle_with_one_transfer
  (fuel : nat) (winner loser : Player) (imbalanceThreshold : Q) :
  isCents (buyIn winner) -> isCents (cashOut winner) ->
  isCents (buyIn loser) -> isCents (cashOut loser) ->
  calculateNetAmount loser == - calculateNetAmount winner ->
  cent < calculateNetAmount winner ->
  cent <= imbalanceThreshold ->
  let transfer := {| from := id loser; to := id winner;
                     amount := toFixed2 (calculateNetAmount winner) |} in
  calculateSettlements (S fuel) [winner; loser] imbalanceThreshold = Some [transfer]
  /\ calculateSettlements (S fuel) [loser; winner] imbalanceThreshold = Some [transfer].
Proof.
  intros Cbw Ccw Cbl Ccl Hnet Hwin Hthr. cbv zeta.
  unfold calculateNetAmount in *. unfold cent in Hwin.
  assert (Main : forall p q,
            (p = winner /\ q = loser) \/ (p = loser /\ q = winner) ->
            calculateSettlements (S fuel) [p; q] imbalanceThreshold
            = Some [ {| from := id loser; to := id winner;
                        amount := toFixed2 (cashOut winner - buyIn winner) |} ]).
  { intros p q Hpq.
    assert (Hz : imbalanceOf [p; q] == 0).
    { unfold imbalanceOf, calculateTotals. simpl.
      destruct Hpq as [[-> ->] | [-> ->]]; lra. }
    assert (Hg : exceedsThreshold [p; q] imbalanceThreshold = false).
    { unfold exceedsThreshold. apply Qltb_ge. rewrite Hz. unfold cent in Hthr.
      change (Qabs 0) with 0. lra. }
    unfold calculateSettlements, runSettlements. rewrite Hg.
    assert (F := allBalances_entries [p; q] imbalanceThreshold Hz).
    unfold startState, initialBalances.
    inversion F as [|? x ? l' [Ix Nx] F' Ep Eb]; subst.
    inversion F' as [|? y ? l'' [Iy Ny] F'' Ep' Eb']; subst.
    inversion F''; subst. unfold calculateNetAmount in *.
    assert (Hx : balance x == cashOut p - buyIn p)
      by (destruct Hpq as [[-> ->] | [-> ->]]; apply Nx; assumption).
    assert (Hy : balance y == cashOut q - buyIn q)
      by (destruct Hpq as [[-> ->] | [-> ->]]; apply Ny; assumption).
    assert (Ux : unsettled x = true).
    { unfold unsettled, cent. apply Qltb_lt. rewrite Hx.
      destruct Hpq as [[-> ->] | [-> ->]]; apply Qabs_case; intro; lra. }
    assert (Uy : unsettled y = true).
    { unfold unsettled, cent. apply Qltb_lt. rewrite Hy.
      destruct Hpq as [[-> ->] | [-> ->]]; apply Qabs_case; intro; lra. }
    cbn [filter]. rewrite Ux, Uy.
    assert (Hsigns : (balance x < 0 /\ 0 < balance y) \/ (0 < balance x /\ balance y < 0)).
    { rewrite Hx, Hy. destruct Hpq as [[-> ->] | [-> ->]]; [right | left]; lra. }
    destruct (loop_pair fuel x y Hsigns) as (d & c & Id & Ic & Hd & Hc & E).
    rewrite E. f_equal. f_equal.
    assert (Hdc : (d = x /\ c = y) \/ (d = y /\ c = x)).
    { destruct Id as [<- | [<- | []]], Ic as [<- | [<- | []]]; auto; lra. }
    assert (Amt : Qmin (Qabs (balance d)) (balance c) == cashOut winner - buyIn winner).
    { assert (Ad : Qabs (balance d) == - balance d) by (apply Qabs_neg; lra).
      destruct (Q.min_spec (Qabs (balance d)) (balance c)) as [[_ M] | [_ M]]; rewrite M;
        destruct Hdc as [[-> ->] | [-> ->]]; destruct Hpq as [[-> ->] | [-> ->]]; lra. }
    rewrite (toFixed2_comp _ _ Amt).
    destruct Hdc as [[-> ->] | [-> ->]]; destruct Hpq as [[-> ->] | [-> ->]];
      try (rewrite Ix, Iy; reflexivity); exfalso; lra. }
  split; apply Main; auto.
Qed.

Lemma two_players_settle_with_one_transfer_witness :
  let transfer := {| from := "B"; to := "A"; amount := toFixed2 (150 - 100) |} in
  calculateSettlements 1 [P "A" 100 150; P "B" 100 50] 1 = Some [transfer]
  /\ calculateSettlements 1 [P "B" 100 50; P "A" 100 150] 1 = Some [transfer].
Proof.
  apply (two_players_settle_with_one_transfer 0 (P "A" 100 150) (P "B" 100 50) 1).
  - exists 10000%Z. reflexivity.
  - exists 15000%Z. reflexivity.
  - exists 10000%Z. reflexivity.
  - exists 5000%Z. reflexivity.
  - reflexivity.
  - reflexivity.
  - unfold Qle. simpl. lia.
Defined.

(** ** The handlers of the page *)

Section HomeHandlers.

Lemma find_absent (players : list Player) (ident : string) :
  ~ In ident (map id players) -> find (fun p => String.eqb (id p) ident) players = None.
Proof.
  intro H. destruct (find _ players) as [p|] eqn:E; [|reflexivity].
  apply find_some in E. destruct E as [Hp Heq]. apply String.eqb_eq in Heq.
  exfalso. apply H. rewrite <- Heq. apply in_map, Hp.
Qed.

Lemma find_present (players : list Player) (ident : string) :
  In ident (map id players) ->
  exists p, find (fun p => String.eqb (id p) ident) players = Some p
            /\ In p players /\ id p = ident.
Proof.
  intro H. destruct (find (fun p => String.eqb (id p) ident) players) as [p|] eqn:E.
  - exists p. split; [reflexivity|]. apply find_some in E. destruct E as [Hp Heq].
    apply String.eqb_eq in Heq. tauto.
  - exfalso. apply in_map_iff in H. destruct H as [q [Hq Hin]].
    apply (find_none _ _ E) in Hin. rewrite Hq, String.eqb_refl in Hin. discriminate.
Qed.

Lemma orEmpty_Some (s : string) : Home.orEmpty (Some s) = s.
Proof.
  unfold Home.orEmpty. destruct (String.eqb s EmptyString) eqn:E; [|reflexivity].
  apply String.eqb_eq in E. congruence.
Qed.

Lemma calculateTotals_snoc (players : list Player) (p : Player) :
  calculateTotals (players ++ [p])
  = {| totalBuyIns := totalBuyIns (calculateTotals players) + buyIn p;
       totalCashOuts := totalCashOuts (calculateTotals players) + cashOut p |}.
Proof. unfold calculateTotals. rewrite fold_left_app. reflexivity. Qed.

End HomeHandlers.

(** The name shown in the settlements panel and the name printed in the
    report are the same for an identifier of the player list; for any other
    identifier the panel shows the empty string where the report prints the
    word [undefined]. *)
Theorem getPlayerName_against_report (st : Home.State) (ident : string) :
  (In ident (map id (Home.players st)) ->
     Home.getPlayerName st ident = findName (Home.players st) ident)
  /\ (~ In ident (map id (Home.players st)) ->
       Home.getPlayerName st ident = EmptyString
       /\ findName (Home.players st) ident = "undefined"%string).
Proof.
  unfold Home.getPlayerName, findName. split; intro H.
  - destruct (find_present _ _ H) as [p [E _]]. rewrite E. cbn [option_map].
    apply orEmpty_Some.
  - rewrite (find_absent _ _ H). split; reflexivity.
Qed.

Lemma getPlayerName_against_report_witness :
  Home.getPlayerName (Home.mounted example1 1) "B" = findName example1 "B"
  /\ Home.getPlayerName (Home.mounted example1 1) "Z" = EmptyString
  /\ findName example1 "Z" = "undefined"%string.
Proof.
  destruct (getPlayerName_against_report (Home.mounted example1 1) "B") as [H1 _].
  destruct (getPlayerName_against_report (Home.mounted example1 1) "Z") as [_ H2].
  split; [apply H1; simpl; auto|].
  apply H2. simpl. intuition discriminate.
Defined.

(** Adding a player leaves the game balance as it was: the added player has
    no buy-in and no cash-out, so the totals, the difference and the two
    flags of the balance panel keep their values (and nothing at all
    changes when the typed name is blank). *)
Theorem addPlayer_keeps_game_balance
  (trim : string -> string) (now : string) (st : Home.State) :
  let before := Home.getGameBalance st in
  let after := Home.getGameBalance (Home.addPlayer trim now st) in
  Home.totalBuyIns after == Home.totalBuyIns before
  /\ Home.totalCashOuts after == Home.totalCashOuts before
  /\ Home.difference after == Home.difference before
  /\ Home.isBalanced after = Home.isBalanced before
  /\ Home.isWithinThreshold after = Home.isWithinThreshold before.
Proof.
  cbv zeta. unfold Home.addPlayer.
  destruct (String.eqb (trim (Home.newPlayerName st)) EmptyString).
  - repeat split; reflexivity.
  - unfold Home.getGameBalance. cbn [Home.players Home.imbalanceThreshold].
    rewrite calculateTotals_snoc. cbn [buyIn cashOut].
    destruct (calculateTotals (Home.players st)) as [b c].
    cbn [totalBuyIns totalCashOuts Home.totalBuyIns Home.totalCashOuts Home.difference
         Home.isBalanced Home.isWithinThreshold].
    assert (E : c + 0 - (b + 0) == c - b) by ring.
    repeat split; try ring.
    + unfold Qltb. rewrite E. reflexivity.
    + rewrite E. reflexivity.
Qed.

(** Adding a player whose identifier (the clock reading) is not yet in use
    keeps the identifiers of the list distinct. *)
Theorem addPlayer_keeps_identifiers_distinct
  (trim : string -> string) (now : string) (st : Home.State) :
  NoDup (map id (Home.players st)) ->
  ~ In now (map id (Home.players st)) ->
  NoDup (map id (Home.players (Home.addPlayer trim now st))).
Proof.
  intros Hnd Hfresh. unfold Home.addPlayer.
  destruct (String.eqb (trim (Home.newPlayerName st)) EmptyString); [exact Hnd|].
  cbn [Home.players]. rewrite map_app. cbn [map id].
  apply NoDup_app; repeat split.
  - exact Hnd.
  - repeat constructor. intros [].
  - intros x Hx [<- | []]. exact (Hfresh Hx).
Qed.

Lemma addPlayer_keeps_identifiers_distinct_witness :
  NoDup (map id (Home.players
                   (Home.addPlayer (fun s => s) "1700000000000"
                      (Home.setNewPlayerName "Carol" (Home.mounted example1 1))))).
Proof.
  apply addPlayer_keeps_identifiers_distinct.
  - repeat constructor; simpl; intuition discriminate.
  - simpl. intuition discriminate.
Defined.

(** Removing a player: the identifier is gone from the list (every entry
    carrying it, should there be several), the panel's name look-up for it
    gives the empty string, the other players stay, in their order with
    their amounts, and distinct identifiers stay distinct.  Removing an
    identifier that is not in the list changes no player. *)
Theorem removePlayer_removes_exactly_that_player (ident : string) (st : Home.State) :
  let st' := Home.removePlayer ident st in
  ~ In ident (map id (Home.players st'))
  /\ Home.getPlayerName st' ident = EmptyString
  /\ (forall p, In p (Home.players st') <-> In p (Home.players st) /\ id p <> ident)
  /\ (NoDup (map id (Home.players st)) -> NoDup (map id (Home.players st')))
  /\ (~ In ident (map id (Home.players st)) -> Home.players st' = Home.players st).
Proof.
  cbv zeta. unfold Home.removePlayer. cbn [Home.players].
  assert (Hmem : forall p,
            In p (filter (fun player => negb (String.eqb (id player) ident)) (Home.players st))
            <-> In p (Home.players st) /\ id p <> ident).
  { intro p. rewrite filter_In, negb_true_iff, String.eqb_neq. tauto. }
  assert (Hgone : ~ In ident
            (map id (filter (fun player => negb (String.eqb (id player) ident))
                            (Home.players st)))).
  { intro H. apply in_map_iff in H. destruct H as [p [E Hp]].
    apply Hmem in Hp. tauto. }
  split; [exact Hgone|]. split.
  - unfold Home.getPlayerName. cbn [Home.players]. rewrite (find_absent _ _ Hgone). reflexivity.
  - split; [exact Hmem|]. split.
    + apply NoDup_map_filter.
    + clear Hmem Hgone. intro H. induction (Home.players st) as [|p l IH]; [reflexivity|].
      cbn [filter]. destruct (String.eqb (id p) ident) eqn:E.
      * apply String.eqb_eq in E. exfalso. apply H. left. exact E.
      * cbn [negb]. f_equal. apply IH. intro Hin. apply H. right. exact Hin.
Qed.

(** Editing an amount: identifiers, names, order and the other amount of
    every player are kept; every player carrying the identifier gets the
    new value in the edited field, every other player is left as it was;
    and an identifier that is not in the list changes no player. *)
Theorem updatePlayerAmount_sets_only_that_amount
  (ident : string) (field : Home.AmountField) (value : Q) (st : Home.State) :
  let st' := Home.updatePlayerAmount ident field value st in
  Forall2 (fun p p' =>
             id p' = id p /\ name p' = name p
             /\ (id p = ident -> Home.amountOf field p' = value)
             /\ match field with
                | Home.BuyIn => cashOut p' = cashOut p
                | Home.CashOut => buyIn p' = buyIn p
                end
             /\ (id p <> ident -> p' = p))
          (Home.players st) (Home.players st')
  /\ (~ In ident (map id (Home.players st)) -> Home.players st' = Home.players st).
Proof.
  cbv zeta. unfold Home.updatePlayerAmount. cbn [Home.players]. split.
  - induction (Home.players st) as [|p l IH]; [constructor|].
    cbn [map]. constructor; [|exact IH].
    destruct (String.eqb (id p) ident) eqn:E.
    + apply String.eqb_eq in E. destruct field; cbn; repeat split; try reflexivity;
        intro H; congruence.
    + apply String.eqb_neq in E. destruct field; repeat split; try reflexivity;
        intro H; congruence.
  - intro H. induction (Home.players st) as [|p l IH]; [reflexivity|].
    cbn [map]. destruct (String.eqb (id p) ident) eqn:E.
    + apply String.eqb_eq in E. exfalso. apply H. left. exact E.
    + f_equal. apply IH. intro Hin. apply H. right. exact Hin.
Qed.

Section OtherTotal.

Let addPlayerAmounts (acc : Totals) (player : Player) : Totals :=
  {| totalBuyIns := totalBuyIns acc + buyIn player;
     totalCashOuts := totalCashOuts acc + cashOut player |}.

Lemma fold_totals_cashOuts (f : Player -> Player) :
  (forall p, cashOut (f p) = cashOut p) ->
  forall l acc1 acc2, totalCashOuts acc1 = totalCashOuts acc2 ->
    totalCashOuts (fold_left addPlayerAmounts (map f l) acc1)
    = totalCashOuts (fold_left addPlayerAmounts l acc2).
Proof.
  intros Hf. induction l as [|p l IH]; intros acc1 acc2 E; [exact E|].
  cbn [map fold_left]. apply IH. unfold addPlayerAmounts. cbn [totalCashOuts].
  rewrite E, Hf. reflexivity.
Qed.

Lemma fold_totals_buyIns (f : Player -> Player) :
  (forall p, buyIn (f p) = buyIn p) ->
  forall l acc1 acc2, totalBuyIns acc1 = totalBuyIns acc2 ->
    totalBuyIns (fold_left addPlayerAmounts (map f l) acc1)
    = totalBuyIns (fold_left addPlayerAmounts l acc2).
Proof.
  intros Hf. induction l as [|p l IH]; intros acc1 acc2 E; [exact E|].
  cbn [map fold_left]. apply IH. unfold addPlayerAmounts. cbn [totalBuyIns].
  rewrite E, Hf. reflexivity.
Qed.

End OtherTotal.

(** Editing a buy-in leaves the total of cash-outs untouched, and editing
    a cash-out leaves the total of buy-ins untouched. *)
Theorem updatePlayerAmount_keeps_other_total
  (ident : string) (field : Home.AmountField) (value : Q) (st : Home.State) :
  let before := calculateTotals (Home.players st) in
  let after := calculateTotals (Home.players (Home.updatePlayerAmount ident field value st)) in
  match field with
  | Home.BuyIn => totalCashOuts after = totalCashOuts before
  | Home.CashOut => totalBuyIns after = totalBuyIns before
  end.
Proof.
  cbv zeta. unfold Home.updatePlayerAmount, calculateTotals. cbn [Home.players].
  destruct field.
  - apply (fold_totals_cashOuts
             (fun player => if String.eqb (id player) ident
                            then Home.withAmount Home.BuyIn value player else player));
      [|reflexivity].
    intro p. destruct (String.eqb (id p) ident); reflexivity.
  - apply (fold_totals_buyIns
             (fun player => if String.eqb (id player) ident
                            then Home.withAmount Home.CashOut value player else player));
      [|reflexivity].
    intro p. destruct (String.eqb (id p) ident); reflexivity.
Qed.

(** ** Reset, and the balance panel against the engine *)

(** After a confirmed reset the page reports no game state; a declined
    reset changes nothing.  In general there is no game state exactly when
    the list is empty and the threshold equals 1. *)
Theorem resetGame_clears_the_game_state (st : Home.State) :
  Home.hasGameState (Home.resetGame true st) = false
  /\ Home.resetGame false st = st
  /\ (Home.hasGameState st = false
      <-> Home.players st = [] /\ Home.imbalanceThreshold st == 1).
Proof.
  split; [reflexivity|]. split; [reflexivity|].
  unfold Home.hasGameState. rewrite orb_false_iff, negb_false_iff, Qeq_bool_iff.
  destruct (Home.players st) as [|p l].
  - split; intros [_ H]; split; (reflexivity || exact H).
  - split; intros [H _]; discriminate H.
Qed.

(** The balance panel and the engine use the same test: the panel's
    "within threshold" flag is set exactly when the engine does not refuse
    the ledger.  So when the flag is down a calculation returns no
    transfer; and a ledger shown as balanced (difference under a cent) is
    within every threshold of a cent or more. *)
Theorem balance_panel_agrees_with_engine (st : Home.State) :
  let gb := Home.getGameBalance st in
  Home.isWithinThreshold gb
  = negb (exceedsThreshold (Home.players st) (Home.imbalanceThreshold st))
  /\ (Home.isWithinThreshold gb = false ->
      forall fuel,
        option_map Home.settlements (Home.handleCalculateSettlements fuel st) = Some [])
  /\ (Home.isBalanced gb = true -> cent <= Home.imbalanceThreshold st ->
      Home.isWithinThreshold gb = true).
Proof.
  cbv zeta.
  assert (E : Home.isWithinThreshold (Home.getGameBalance st)
              = negb (exceedsThreshold (Home.players st) (Home.imbalanceThreshold st))).
  { unfold Home.getGameBalance, exceedsThreshold, imbalanceOf, Qltb. cbv zeta.
    destruct (calculateTotals (Home.players st)) as [b c].
    cbn [Home.isWithinThreshold totalBuyIns totalCashOuts]. rewrite negb_involutive.
    reflexivity. }
  split; [exact E|]. split.
  - intros H fuel. rewrite E in H. apply negb_false_iff in H.
    unfold Home.handleCalculateSettlements, calculateSettlements, runSettlements.
    rewrite H. reflexivity.
  - unfold Home.getGameBalance. destruct (calculateTotals (Home.players st)) as [b c].
    cbn [Home.isBalanced Home.isWithinThreshold]. intros H Hthr.
    apply Qltb_lt in H. apply Qle_bool_iff. lra.
Qed.

Lemma balance_panel_agrees_with_engine_witness :
  Home.isWithinThreshold (Home.getGameBalance (Home.mounted example4 1)) = false
  /\ option_map Home.settlements
       (Home.handleCalculateSettlements 0 (Home.mounted example4 1)) = Some [].
Proof.
  assert (H : Home.isWithinThreshold (Home.getGameBalance (Home.mounted example4 1)) = false)
    by (vm_compute; reflexivity).
  split; [exact H|].
  apply (proj1 (proj2 (balance_panel_agrees_with_engine (Home.mounted example4 1))) H).
Defined.

(** ** The settlements shown on the page *)

Section Displayed.

Variable trim : string -> string.

Lemma handle_displayOK (ev : Home.Event) (st st' : Home.State) :
  displayOK st -> Home.handle trim ev st = Some st' -> displayOK st'.
Proof.
  intros Hok H. destruct ev; cbn [Home.handle] in H.
  - injection H as <-. exact Hok.
  - injection H as <-. unfold Home.addPlayer.
    destruct (String.eqb _ _); [exact Hok|]. intros _. constructor.
  - injection H as <-. intros _. constructor.
  - injection H as <-. intros _. constructor.
  - injection H as <-. exact Hok.
  - unfold Home.handleCalculateSettlements in H.
    destruct (calculateSettlements fuel _ _) as [ss|] eqn:E; [|discriminate].
    injection H as <-. intros _. cbn [Home.players Home.settlements].
    apply (transfers_name_known_players _ _ _ _ E).
  - injection H as <-. destruct confirmed; [|exact Hok].
    intro Hne. exfalso. apply Hne. reflexivity.
Qed.

Lemma run_displayOK (events : list Home.Event) : forall st st',
  displayOK st -> Home.run trim events st = Some st' -> displayOK st'.
Proof.
  induction events as [|ev rest IH]; intros st st' Hok H; cbn [Home.run] in H.
  - injection H as <-. exact Hok.
  - destruct (Home.handle trim ev st) as [st1|] eqn:E; [|discriminate].
    apply (IH st1); [apply (handle_displayOK ev st); assumption | exact H].
Qed.

End Displayed.

(** From the mounted page, after any sequence of user actions whose
    calculations return: if the list has players (the condition under which
    the panel is rendered), every displayed transfer has a payer and a
    payee in the list, and the panel shows their names.  Every edit of the
    list clears the transfers, and a reset empties the list. *)
Theorem displayed_transfers_name_listed_players
  (trim : string -> string) (events : list Home.Event)
  (savedPlayers : list Player) (savedThreshold : Q) (st : Home.State) :
  Home.run trim events (Home.mounted savedPlayers savedThreshold) = Some st ->
  Home.players st <> [] ->
  Forall (fun s =>
            (exists p, In p (Home.players st) /\ id p = from s
                       /\ Home.getPlayerName st (from s) = name p)
            /\ (exists q, In q (Home.players st) /\ id q = to s
                          /\ Home.getPlayerName st (to s) = name q))
         (Home.settlements st).
Proof.
  intros Hrun Hne.
  assert (H0 : displayOK (Home.mounted savedPlayers savedThreshold))
    by (intros _; constructor).
  assert (H := run_displayOK trim events _ _ H0 Hrun Hne).
  eapply Forall_impl; [|exact H].
  intros s [Hf Ht]. unfold Home.getPlayerName. split.
  - destruct (find_present _ _ Hf) as [p (E & Hp & Hid)]. exists p.
    rewrite E. cbn [option_map]. rewrite orEmpty_Some. tauto.
  - destruct (find_present _ _ Ht) as [q (E & Hq & Hid)]. exists q.
    rewrite E. cbn [option_map]. rewrite orEmpty_Some. tauto.
Qed.

Lemma displayed_transfers_name_listed_players_witness :
  Forall (fun s =>
            (exists p, In p [P "A" 100 150; P "B" 100 50; P "3" 0 0]
                       /\ id p = from s
                       /\ Home.getPlayerName
                            (Home.mkState [P "A" 100 150; P "B" 100 50; P "3" 0 0]
                                          EmptyString 1 [T "B" "A" (5000 # 100)])
                            (from s) = name p)
            /\ (exists q, In q [P "A" 100 150; P "B" 100 50; P "3" 0 0]
                          /\ id q = to s
                          /\ Home.getPlayerName
                               (Home.mkState [P "A" 100 150; P "B" 100 50; P "3" 0 0]
                                             EmptyString 1 [T "B" "A" (5000 # 100)])
                               (to s) = name q))
         [T "B" "A" (5000 # 100)].
Proof.
  apply (displayed_transfers_name_listed_players (fun s => s)
           [Home.CalculateSettlements 3; Home.TypeName "3"; Home.AddPlayer "3";
            Home.CalculateSettlements 3]
           example1 1
           (Home.mkState [P "A" 100 150; P "B" 100 50; P "3" 0 0]
                         EmptyString 1 [T "B" "A" (5000 # 100)])).
  - vm_compute. reflexivity.
  - discriminate.
Defined.

(** ** The report against the engine *)

(** Every settlement line of the report names two players of the list:
    for the transfers the engine returns on a list, both name look-ups
    succeed and the line reads "- payer pays payee: amount". *)
Theorem report_lines_name_listed_players
  (formatGBP : Q -> string) (fuel : nat) (players : list Player) (imbalanceThreshold : Q)
  (settlements : list Settlement) :
  calculateSettlements fuel players imbalanceThreshold = Some settlements ->
  Forall (fun s =>
            exists p q,
              In p players /\ In q players /\ id p = from s /\ id q = to s
              /\ settlementLine formatGBP players s
                 = ("- " ++ name p ++ " pays " ++ name q ++ ": " ++ formatGBP (amount s))%string)
         settlements.
Proof.
  intro H. eapply Forall_impl; [|exact (transfers_name_known_players _ _ _ _ H)].
  intros s [Hf Ht].
  destruct (find_present _ _ Hf) as [p (Ep & Hp & Ip)].
  destruct (find_present _ _ Ht) as [q (Eq & Hq & Iq)].
  exists p, q. unfold settlementLine, findName. rewrite Ep, Eq. tauto.
Qed.

Lemma report_lines_name_listed_players_witness :
  Forall (fun s =>
            exists p q,
              In p example1 /\ In q example1 /\ id p = from s /\ id q = to s
              /\ settlementLine (fun _ => "50.00"%string) example1 s
                 = ("- " ++ name p ++ " pays " ++ name q ++ ": " ++ "50.00")%string)
         [T "B" "A" (5000 # 100)].
Proof.
  apply (report_lines_name_listed_players (fun _ => "50.00"%string) 3 example1 1).
  vm_compute. reflexivity.
Defined.

(** The imbalance section of the report against the engine's guard.  The
    section is absent exactly when the difference is under a cent, whether
    or not the engine then settles.  When it is present it has one message:
    the "within threshold" one exactly when the engine does not refuse the
    ledger, and otherwise the one naming the side in excess. *)
Theorem report_imbalance_message_matches_guard
  (formatGBP : Q -> string) (players : list Player) (imbalanceThreshold : Q) :
  let difference := imbalanceOf players in
  let messages := imbalanceMessages formatGBP players imbalanceThreshold in
  (messages = [] <-> Qabs difference < cent)
  /\ (cent <= Qabs difference ->
      exceedsThreshold players imbalanceThreshold = false ->
      messages = [("Small imbalance of " ++ formatGBP (Qabs difference)
                   ++ " detected (within threshold)")%string])
  /\ (cent <= Qabs difference ->
      exceedsThreshold players imbalanceThreshold = true ->
      (0 < difference ->
       messages = [("Cash-outs exceed buy-ins by " ++ formatGBP difference)%string])
      /\ (difference <= 0 ->
          messages = [("Buy-ins exceed cash-outs by " ++ formatGBP (Qabs difference))%string])).
Proof.
  cbv zeta. unfold imbalanceMessages, exceedsThreshold, imbalanceOf. cbv zeta.
  set (d := totalCashOuts (calculateTotals players) - totalBuyIns (calculateTotals players)).
  assert (G : Qltb imbalanceThreshold (Qabs d) = negb (Qle_bool (Qabs d) imbalanceThreshold))
    by reflexivity.
  rewrite G. clear G.
  destruct (Qltb (Qabs d) cent) eqn:B; cbn [negb].
  - apply Qltb_lt in B. split; [tauto|]. split; intros H; exfalso; lra.
  - apply Qltb_ge in B. split.
    + split; intro H; [|exfalso; lra].
      destruct (Qle_bool (Qabs d) imbalanceThreshold); discriminate.
    + destruct (Qle_bool (Qabs d) imbalanceThreshold); cbn [negb].
      * split; [reflexivity|]. intros _ E. discriminate.
      * split; [intros _ E; discriminate|]. intros _ _.
        split; intro S.
        -- apply Qltb_lt in S. rewrite S. reflexivity.
        -- apply Qltb_ge in S. rewrite S. reflexivity.
Qed.

Lemma report_imbalance_message_matches_guard_witness :
  imbalanceMessages (fun _ => "100.00"%string) example4 1
  = ["Buy-ins exceed cash-outs by 100.00"%string].
Proof.
  apply (proj2 (proj2 (report_imbalance_message_matches_guard
                         (fun _ => "100.00"%string) example4 1))).
  - vm_compute. discriminate.
  - vm_compute. reflexivity.
  - vm_compute. discriminate.
Defined.

(** ** The absorbed imbalance *)

Section Adjustment.

Variable adjustment : Q.

Let adjust (player : Player) : Player :=
  {| id := id player; name := name player; buyIn := buyIn player;
     cashOut := toFixed2 (cashOut player - adjustment) |}.

Let addAmounts (acc : Totals) (player : Player) : Totals :=
  {| totalBuyIns := totalBuyIns acc + buyIn player;
     totalCashOuts := totalCashOuts acc + cashOut player |}.

Lemma fold_adjusted (l : list Player) : forall (acc acc' : Totals) (m : nat),
  totalBuyIns acc' == totalBuyIns acc ->
  Qabs (totalCashOuts acc' - (totalCashOuts acc - inject_Z (Z.of_nat m) * adjustment))
    <= inject_Z (Z.of_nat m) * (1 # 200) ->
  let r := fold_left addAmounts l acc in
  let r' := fold_left addAmounts (map adjust l) acc' in
  totalBuyIns r' == totalBuyIns r
  /\ Qabs (totalCashOuts r'
           - (totalCashOuts r - inject_Z (Z.of_nat (m + List.length l)) * adjustment))
     <= inject_Z (Z.of_nat (m + List.length l)) * (1 # 200).
Proof.
  induction l as [|p l IH]; intros acc acc' m Hb Hc; cbv zeta.
  - cbn [map fold_left List.length]. rewrite Nat.add_0_r. split; assumption.
  - cbn [map fold_left List.length].
    replace (m + S (List.length l))%nat with (S m + List.length l)%nat by lia.
    apply IH.
    + unfold addAmounts, adjust. cbn [totalBuyIns buyIn]. rewrite Hb. reflexivity.
    + unfold addAmounts, adjust. cbn [totalCashOuts cashOut].
      assert (E := toFixed2_error (cashOut p - adjustment)).
      rewrite Nat2Z.inj_succ, <- Z.add_1_r, inject_Z_plus. change (inject_Z 1) with 1.
      revert Hc E. generalize (inject_Z (Z.of_nat m)). intros k.
      generalize (toFixed2 (cashOut p - adjustment)). intros t.
      apply Qabs_case; intros S1 Hc; apply Qabs_case; intros S2 E;
        apply Qabs_case; intros _; lra.
Qed.

End Adjustment.

(** When the ledger is let through, the ledger the balances are computed
    from (each cash-out reduced by an equal share of the imbalance and
    rounded) has the same total of buy-ins and an imbalance of at most
    half a hundredth per player. *)
Theorem adjusted_ledger_is_nearly_balanced (players : list Player) (imbalanceThreshold : Q) :
  exceedsThreshold players imbalanceThreshold = false ->
  let adjusted := adjustPlayers players imbalanceThreshold in
  totalBuyIns (calculateTotals adjusted) == totalBuyIns (calculateTotals players)
  /\ Qabs (imbalanceOf adjusted) <= inject_Z (Z.of_nat (List.length players)) * (1 # 200).
Proof.
  intro Hg. cbv zeta. unfold adjustPlayers. cbv zeta.
  unfold exceedsThreshold in Hg. apply Qltb_ge in Hg. apply Qle_bool_iff in Hg. rewrite Hg.
  destruct players as [|p0 l0] eqn:Ep; [split; vm_compute; [reflexivity | discriminate]|].
  rewrite <- Ep in *. replace (0 <? List.length players)%nat with true
    by (rewrite Ep; reflexivity).
  cbn [andb].
  set (n := inject_Z (Z.of_nat (List.length players))).
  assert (Hn : 0 < n).
  { unfold n. rewrite Ep. cbn [List.length]. rewrite Nat2Z.inj_succ.
    unfold Qlt, inject_Z. simpl. lia. }
  destruct (fold_adjusted (imbalanceOf players / n) players
              {| totalBuyIns := 0; totalCashOuts := 0 |}
              {| totalBuyIns := 0; totalCashOuts := 0 |} 0) as [Hb Hc].
  - reflexivity.
  - vm_compute. discriminate.
  - cbn [Nat.add] in Hc. fold n in Hc.
    split; [exact Hb|].
    unfold imbalanceOf at 1. cbv zeta. unfold calculateTotals at 1 2.
    assert (Hshare : n * (imbalanceOf players / n) == imbalanceOf players)
      by (field; lra).
    unfold imbalanceOf in Hshare at 2. cbv zeta in Hshare.
    unfold calculateTotals in Hshare at 1 2. unfold calculateTotals in Hb.
    revert Hb Hc Hshare.
    generalize (imbalanceOf players / n). intro a.
    match goal with
    | |- totalBuyIns ?r' == totalBuyIns ?r -> _ =>
        generalize (totalBuyIns r'), (totalCashOuts r'), (totalBuyIns r), (totalCashOuts r)
    end.
    intros b' c' b c Hb Hc Hshare.
    revert Hc. apply Qabs_case; intros S1 Hc; apply Qabs_case; intros _; nra.
Qed.

Lemma adjusted_ledger_is_nearly_balanced_witness :
  totalBuyIns (calculateTotals (adjustPlayers example3 10))
  == totalBuyIns (calculateTotals example3)
  /\ Qabs (imbalanceOf (adjustPlayers example3 10)) <= inject_Z 3 * (1 # 200).
Proof.
  apply (adjusted_ledger_is_nearly_balanced example3 10). vm_compute. reflexivity.
Defined.

(** ** Witnesses of earlier results *)

Lemma opposite_signs_give_greedy_bound_witness :
  exists settlements,
    calculateSettlements 3 example3 10 = Some settlements
    /\ (List.length settlements <= 2)%nat.
Proof.
  apply (opposite_signs_give_greedy_bound example3 10). vm_compute. reflexivity.
Defined.

Lemma allBalances_net_witness :
  balanceOf (allBalances example1 1) "A" == calculateNetAmount (P "A" 100 150).
Proof.
  apply (allBalances_net example1 1 (P "A" 100 150)).
  - repeat constructor; simpl; intuition discriminate.
  - left. reflexivity.
  - vm_compute. reflexivity.
  - exists 10000%Z. reflexivity.
  - exists 15000%Z. reflexivity.
Defined.

(** ** Net positions of a balanced ledger *)

Section NetPositions.




Lemma sumOver_ext (f g : Player -> Q) (l : list Player) :
  (forall p, In p l -> f p == g p) -> sumOver f l == sumOver g l.
Proof.
  unfold sumOver. induction l as [|p l IH]; intro H; simpl; [reflexivity|].
  rewrite (H p (or_introl eq_refl)), IH; [reflexivity|].
  intros q Hq. apply H. right. exact Hq.
Qed.







End NetPositions.

Section BalancedLedger.




End BalancedLedger.




(** ** The store: reading, creating and assigning *)

Section StoreFacts.

Lemma nth_error_update_same (r : Store.ref) (o : Store.object) (h : Store.store) :
  (r < List.length h)%nat -> nth_error (Store.update r o h) r = Some o.
Proof.
  revert r. induction h as [|x h IH]; intros [|r] H; simpl in *; try lia; [reflexivity|].
  apply IH. lia.
Qed.

Lemma nth_error_update_other (r r' : Store.ref) (o : Store.object) (h : Store.store) :
  r <> r' -> nth_error (Store.update r o h) r' = nth_error h r'.
Proof.
  revert r r'. induction h as [|x h IH]; intros [|r] [|r'] H; simpl; try reflexivity;
    try congruence.
  apply IH. congruence.
Qed.

Lemma length_update (r : Store.ref) (o : Store.object) (h : Store.store) :
  List.length (Store.update r o h) = List.length h.
Proof.
  revert r. induction h as [|x h IH]; intros [|r]; simpl; try reflexivity.
  rewrite IH. reflexivity.
Qed.

Lemma firstn_update (n : nat) (r : Store.ref) (o : Store.object) (h : Store.store) :
  (n <= r)%nat -> firstn n (Store.update r o h) = firstn n h.
Proof.
  revert n r. induction h as [|x h IH]; intros [|n] [|r] H; simpl; try reflexivity; try lia.
  rewrite IH by lia. reflexivity.
Qed.

Lemma nth_error_app_old (h x : Store.store) (r : Store.ref) (o : Store.object) :
  nth_error h r = Some o -> nth_error (h ++ x) r = Some o.
Proof.
  intro H. rewrite nth_error_app1; [exact H|].
  apply nth_error_Some. congruence.
Qed.

Lemma nth_error_app_new (h : Store.store) (o : Store.object) :
  nth_error (h ++ [o]) (List.length h) = Some o.
Proof. rewrite nth_error_app2, Nat.sub_diag by lia. reflexivity. Qed.

Lemma nth_error_in_range (h : Store.store) (r : Store.ref) (o : Store.object) :
  nth_error h r = Some o -> (r < List.length h)%nat.
Proof. intro H. apply nth_error_Some. congruence. Qed.

(** *** What is preserved *)

Lemma preserved_refl (h : Store.store) : Store.preserved h h.
Proof. apply firstn_all. Qed.

Lemma preserved_length (h0 h : Store.store) : Store.preserved h0 h -> (List.length h0 <= List.length h)%nat.
Proof.
  unfold Store.preserved. intro H. assert (L := f_equal (@List.length _) H).
  rewrite length_firstn in L. lia.
Qed.

Lemma preserved_app (h0 h x : Store.store) : Store.preserved h0 h -> Store.preserved h0 (h ++ x).
Proof.
  intro H. assert (L := preserved_length _ _ H). unfold Store.preserved in *.
  rewrite firstn_app. replace (List.length h0 - List.length h)%nat with 0%nat by lia.
  rewrite H. simpl. apply app_nil_r.
Qed.

Lemma preserved_update (h0 h : Store.store) (r : Store.ref) (o : Store.object) :
  Store.preserved h0 h -> (List.length h0 <= r)%nat -> Store.preserved h0 (Store.update r o h).
Proof. unfold Store.preserved. intros H L. rewrite firstn_update by exact L. exact H. Qed.

Lemma preserved_trans (h0 h1 h2 : Store.store) :
  Store.preserved h0 h1 -> Store.preserved h1 h2 -> Store.preserved h0 h2.
Proof.
  intros H1 H2. assert (L := preserved_length _ _ H1). unfold Store.preserved in *.
  rewrite <- H2 in H1. rewrite firstn_firstn in H1.
  replace (Nat.min (List.length h0) (List.length h1)) with (List.length h0) in H1 by lia.
  exact H1.
Qed.

Lemma preserved_read (h0 h : Store.store) (r : Store.ref) (o : Store.object) :
  Store.preserved h0 h -> nth_error h0 r = Some o -> nth_error h r = Some o.
Proof.
  intros H Hr. assert (L := nth_error_in_range _ _ _ Hr). unfold Store.preserved in H.
  rewrite <- H in Hr. rewrite nth_error_firstn in Hr.
  destruct (r <? List.length h0)%nat eqn:E; [exact Hr|]. apply Nat.ltb_ge in E. lia.
Qed.

(** *** References holding values *)

Lemma holds_app {A : Type} (inj : A -> Store.object) (h x : Store.store) (rs : list Store.ref) (xs : list A) :
  Store.holds inj h rs xs -> Store.holds inj (h ++ x) rs xs.
Proof.
  unfold Store.holds. intro H. eapply Forall2_impl; [|exact H].
  intros r a Hr. apply nth_error_app_old, Hr.
Qed.

Lemma holds_update_other {A : Type} (inj : A -> Store.object) (h : Store.store) (r : Store.ref) (o : Store.object)
  (rs : list Store.ref) (xs : list A) :
  Store.holds inj h rs xs -> ~ In r rs -> Store.holds inj (Store.update r o h) rs xs.
Proof.
  unfold Store.holds. induction 1 as [|r' a rs xs Hr _ IH]; intro Hn; constructor.
  - rewrite nth_error_update_other; [exact Hr|]. intro E. apply Hn. left. congruence.
  - apply IH. intro Hin. apply Hn. right. exact Hin.
Qed.

Lemma holds_preserved {A : Type} (inj : A -> Store.object) (h0 h : Store.store) (rs : list Store.ref)
  (xs : list A) :
  Store.preserved h0 h -> Store.holds inj h0 rs xs -> Store.holds inj h rs xs.
Proof.
  unfold Store.holds. intros Hp H. eapply Forall2_impl; [|exact H].
  intros r a Hr. apply (preserved_read _ _ _ _ Hp Hr).
Qed.

Lemma holds_length {A : Type} (inj : A -> Store.object) (h : Store.store) (rs : list Store.ref) (xs : list A) :
  Store.holds inj h rs xs -> List.length rs = List.length xs.
Proof. apply Forall2_length. Qed.

Lemma holds_In {A : Type} (inj : A -> Store.object) (h : Store.store) (rs : list Store.ref) (xs : list A)
  (r : Store.ref) :
  Store.holds inj h rs xs -> In r rs -> exists x, nth_error h r = Some (inj x).
Proof.
  unfold Store.holds. induction 1 as [|r' a rs xs Hr _ IH]; intro Hin; [contradiction|].
  destruct Hin as [<- | Hin]; [exists a; exact Hr | apply IH, Hin].
Qed.

(** A reference holding an object of another kind is not among them. *)
Lemma holds_not_In {A : Type} (inj : A -> Store.object) (h : Store.store) (rs : list Store.ref) (xs : list A)
  (r : Store.ref) (o : Store.object) :
  Store.holds inj h rs xs -> nth_error h r = Some o -> (forall x, o <> inj x) -> ~ In r rs.
Proof.
  intros H Hr Hne Hin. destruct (holds_In _ _ _ _ _ H Hin) as [x Hx].
  rewrite Hr in Hx. injection Hx as Hx. exact (Hne x Hx).
Qed.

Lemma holds_nth {A : Type} (inj : A -> Store.object) (h : Store.store) (rs : list Store.ref) (xs : list A)
  (i : nat) (r : Store.ref) :
  Store.holds inj h rs xs -> nth_error rs i = Some r ->
  exists x, nth_error xs i = Some x /\ nth_error h r = Some (inj x).
Proof.
  unfold Store.holds. intro H. revert i. induction H as [|r' a rs xs Hr _ IH]; intros [|i] Hi;
    simpl in *; try discriminate.
  - injection Hi as <-. exists a. split; [reflexivity | exact Hr].
  - apply IH, Hi.
Qed.

Lemma holds_snoc {A : Type} (inj : A -> Store.object) (h : Store.store) (rs : list Store.ref) (xs : list A)
  (r : Store.ref) (x : A) :
  Store.holds inj h rs xs -> nth_error h r = Some (inj x) -> Store.holds inj h (rs ++ [r]) (xs ++ [x]).
Proof.
  unfold Store.holds. intros H Hr. apply Forall2_app; [exact H|]. constructor; [exact Hr | constructor].
Qed.

(** *** Running the primitives *)

Lemma bind_run {A C : Type} (m : Store.M A) (k : A -> Store.M C) (h h' : Store.store) (a : A) :
  m h = Some (a, h') -> Store.bind m k h = k a h'.
Proof. intro H. unfold Store.bind. rewrite H. reflexivity. Qed.

Lemma getArray_run (h : Store.store) (r : Store.ref) (items : list Store.ref) :
  nth_error h r = Some (Store.ArrayObject items) -> Store.getArray r h = Some (items, h).
Proof. intro H. unfold Store.getArray, Store.bind, Store.load. rewrite H. reflexivity. Qed.

Lemma getPlayer_run (h : Store.store) (r : Store.ref) (p : Player) :
  nth_error h r = Some (Store.PlayerObject p) -> Store.getPlayer r h = Some (p, h).
Proof. intro H. unfold Store.getPlayer, Store.bind, Store.load. rewrite H. reflexivity. Qed.

Lemma getBalance_run (h : Store.store) (r : Store.ref) (b : Balance) :
  nth_error h r = Some (Store.BalanceObject b) -> Store.getBalance r h = Some (b, h).
Proof. intro H. unfold Store.getBalance, Store.bind, Store.load. rewrite H. reflexivity. Qed.

Lemma getSettlement_run (h : Store.store) (r : Store.ref) (s : Settlement) :
  nth_error h r = Some (Store.SettlementObject s) -> Store.getSettlement r h = Some (s, h).
Proof. intro H. unfold Store.getSettlement, Store.bind, Store.load. rewrite H. reflexivity. Qed.

Lemma assign_run (h : Store.store) (r : Store.ref) (o o' : Store.object) :
  nth_error h r = Some o' -> Store.assign r o h = Some (tt, Store.update r o h).
Proof.
  intro H. unfold Store.assign.
  replace (r <? List.length h)%nat with true; [reflexivity|].
  symmetry. apply Nat.ltb_lt. apply (nth_error_in_range _ _ _ H).
Qed.

Lemma mapM_get {A : Type} (inj : A -> Store.object) (get : Store.ref -> Store.M A) (h : Store.store) :
  (forall r x, nth_error h r = Some (inj x) -> get r h = Some (x, h)) ->
  forall rs xs, Store.holds inj h rs xs -> Store.mapM get rs h = Some (xs, h).
Proof.
  intros Hget rs xs H. induction H as [|r a rs xs Hr _ IH]; [reflexivity|].
  cbn [Store.mapM]. rewrite (bind_run _ _ _ _ _ (Hget r a Hr)).
  rewrite (bind_run _ _ _ _ _ IH). reflexivity.
Qed.

(** Reading each object and creating a new one from it. *)
Lemma mapM_create {A : Type} (inj : A -> Store.object) (get : Store.ref -> Store.M A) (make : A -> Store.object) :
  (forall h r x, nth_error h r = Some (inj x) -> get r h = Some (x, h)) ->
  forall rs xs h, Store.holds inj h rs xs ->
    Store.mapM (fun r => Store.bind (get r) (fun x => Store.alloc (make x))) rs h
    = Some (seq (List.length h) (List.length rs), h ++ map make xs).
Proof.
  intros Hget rs. induction rs as [|r rs IH]; intros xs h H.
  - inversion H; subst. simpl. unfold Store.ret. rewrite app_nil_r. reflexivity.
  - inversion H as [|? a ? xs' Hr Hrest]; subst. cbn [Store.mapM].
    assert (C : Store.bind (get r) (fun x => Store.alloc (make x)) h
                = Some (List.length h, h ++ [make a]))
      by (rewrite (bind_run _ _ _ _ _ (Hget h r a Hr)); reflexivity).
    rewrite (bind_run _ _ _ _ _ C).
    rewrite (bind_run _ _ _ _ _ (IH xs' (h ++ [make a]) (holds_app _ _ _ _ _ Hrest))).
    unfold Store.ret. rewrite length_app. cbn [List.length map seq].
    rewrite Nat.add_1_r, <- app_assoc. reflexivity.
Qed.

Lemma holds_created {A : Type} (make : A -> Store.object) (h : Store.store) (xs : list A) :
  Store.holds make (h ++ map make xs) (seq (List.length h) (List.length xs)) xs.
Proof.
  unfold Store.holds. revert h. induction xs as [|x xs IH]; intro h; [constructor|].
  cbn [map List.length seq]. constructor.
  - rewrite nth_error_app2, Nat.sub_diag by lia. reflexivity.
  - assert (E : h ++ make x :: map make xs = (h ++ [make x]) ++ map make xs)
      by (rewrite <- app_assoc; reflexivity).
    rewrite E. replace (S (List.length h)) with (List.length (h ++ [make x]))
      by (rewrite length_app; simpl; lia).
    apply IH.
Qed.

End StoreFacts.

(** ** The store: the operations of the loop *)

Section StoreOperations.

Lemma frame_refl (n : nat) (h : Store.store) : frame n h h.
Proof. reflexivity. Qed.

Lemma frame_trans (n : nat) (h1 h2 h3 : Store.store) : frame n h1 h2 -> frame n h2 h3 -> frame n h1 h3.
Proof. unfold frame. congruence. Qed.

Lemma frame_app (n : nat) (h x : Store.store) : (n <= List.length h)%nat -> frame n h (h ++ x).
Proof.
  intro L. unfold frame. rewrite firstn_app.
  replace (n - List.length h)%nat with 0%nat by lia. simpl. apply app_nil_r.
Qed.

Lemma frame_update (n : nat) (h : Store.store) (r : Store.ref) (o : Store.object) :
  (n <= r)%nat -> frame n h (Store.update r o h).
Proof. intro L. unfold frame. apply firstn_update, L. Qed.

Lemma frame_preserved (h0 h h' : Store.store) :
  Store.preserved h0 h -> frame (List.length h0) h h' -> Store.preserved h0 h'.
Proof. unfold Store.preserved, frame. congruence. Qed.

Lemma cells_app (h x : Store.store) balances settlements rs bal srs ss :
  cells h balances settlements rs bal srs ss ->
  cells (h ++ x) balances settlements rs bal srs ss.
Proof.
  intros (Ha & Hb & Hs & Hss). repeat split.
  - apply nth_error_app_old, Ha.
  - apply holds_app, Hb.
  - apply nth_error_app_old, Hs.
  - apply holds_app, Hss.
Qed.

(** *** Totals *)

Lemma foldM_totals (h : Store.store) (rs : list Store.ref) (ps : list Player) :
  Store.holds Store.PlayerObject h rs ps ->
  forall acc,
    Store.foldM (fun acc r =>
             Store.bind (Store.getPlayer r)
                  (fun player =>
                     Store.ret {| totalBuyIns := totalBuyIns acc + buyIn player;
                            totalCashOuts := totalCashOuts acc + cashOut player |}))
          rs acc h
    = Some (fold_left
              (fun acc player =>
                 {| totalBuyIns := totalBuyIns acc + buyIn player;
                    totalCashOuts := totalCashOuts acc + cashOut player |})
              ps acc, h).
Proof.
  induction 1 as [|r p rs ps Hr _ IH]; intro acc; [reflexivity|].
  cbn [Store.foldM fold_left].
  rewrite (bind_run _ _ _ _ _ (bind_run _ _ _ _ _ (getPlayer_run _ _ _ Hr))).
  unfold Store.ret at 1. apply IH.
Qed.

Lemma calculateTotals_run (h : Store.store) (players : Store.ref) (ps : list Player) :
  Store.holdsPlayers h players ps ->
  Store.calculateTotals players h = Some (calculateTotals ps, h).
Proof.
  intros (items & Ha & Hp). unfold Store.calculateTotals.
  rewrite (bind_run _ _ _ _ _ (getArray_run _ _ _ Ha)). apply (foldM_totals _ _ _ Hp).
Qed.

(** *** The filter *)

Lemma filterM_run (h : Store.store) (rs : list Store.ref) (bs : list Balance) :
  Store.holds Store.BalanceObject h rs bs ->
  exists kept,
    Store.filterM (fun r => Store.bind (Store.getBalance r) (fun entry => Store.ret (unsettled entry))) rs h
    = Some (kept, h)
    /\ Store.holds Store.BalanceObject h kept (filter unsettled bs)
    /\ incl kept rs
    /\ (NoDup rs -> NoDup kept).
Proof.
  induction 1 as [|r b rs bs Hr _ IH].
  - exists []. repeat split; try constructor. intros x [].
  - destruct IH as (kept & Hrun & Hk & Hincl & Hnd).
    exists (if unsettled b then r :: kept else kept). cbn [Store.filterM filter].
    rewrite (bind_run _ _ _ _ _ (bind_run _ _ _ _ _ (getBalance_run _ _ _ Hr))).
    unfold Store.ret at 1. rewrite (bind_run _ _ _ _ _ Hrun). split; [reflexivity|].
    destruct (unsettled b).
    + split; [constructor; assumption|]. split.
      * intros x [<- | Hx]; [left; reflexivity | right; apply Hincl, Hx].
      * intro H. inversion H as [|? ? Hx Hrest]; subst.
        constructor; [intro Hin; apply Hx, Hincl, Hin | apply Hnd, Hrest].
    + split; [exact Hk|]. split.
      * intros x Hx. right. apply Hincl, Hx.
      * intro H. inversion H; subst. apply Hnd. assumption.
Qed.

Lemma keepUnsettled_run (h : Store.store) (array : Store.ref) (rs : list Store.ref) (bs : list Balance) :
  nth_error h array = Some (Store.ArrayObject rs) ->
  Store.holds Store.BalanceObject h rs bs ->
  exists kept,
    Store.keepUnsettled array h = Some (List.length h, h ++ [Store.ArrayObject kept])
    /\ Store.holds Store.BalanceObject (h ++ [Store.ArrayObject kept]) kept (filter unsettled bs)
    /\ incl kept rs
    /\ (NoDup rs -> NoDup kept).
Proof.
  intros Ha Hb. destruct (filterM_run _ _ _ Hb) as (kept & Hrun & Hk & Hincl & Hnd).
  exists kept. unfold Store.keepUnsettled.
  rewrite (bind_run _ _ _ _ _ (getArray_run _ _ _ Ha)).
  rewrite (bind_run _ _ _ _ _ Hrun).
  repeat split; try assumption. apply holds_app, Hk.
Qed.

(** *** The sort *)

Lemma insertEntry_perm (x : Store.ref * Balance) (l : list (Store.ref * Balance)) :
  Permutation (Store.insertEntry x l) (x :: l).
Proof.
  induction l as [|y l IH]; simpl; [reflexivity|].
  destruct (Qle_bool _ _); [reflexivity|]. rewrite IH. apply perm_swap.
Qed.

Lemma sortEntries_perm (l : list (Store.ref * Balance)) : Permutation (Store.sortEntries l) l.
Proof.
  induction l as [|x l IH]; simpl; [reflexivity|].
  rewrite insertEntry_perm. constructor. exact IH.
Qed.

Lemma insertEntry_values (x : Store.ref * Balance) (l : list (Store.ref * Balance)) :
  map snd (Store.insertEntry x l) = insertBalance (snd x) (map snd l).
Proof.
  induction l as [|y l IH]; simpl; [reflexivity|].
  destruct (Qle_bool _ _); [reflexivity|]. simpl. rewrite IH. reflexivity.
Qed.

Lemma sortEntries_values (l : list (Store.ref * Balance)) :
  map snd (Store.sortEntries l) = sortBalances (map snd l).
Proof.
  induction l as [|x l IH]; simpl; [reflexivity|].
  rewrite insertEntry_values, IH. reflexivity.
Qed.

Lemma holds_combine (h : Store.store) (rs : list Store.ref) (bs : list Balance) :
  Store.holds Store.BalanceObject h rs bs ->
  map fst (combine rs bs) = rs /\ map snd (combine rs bs) = bs
  /\ Forall (fun e => nth_error h (fst e) = Some (Store.BalanceObject (snd e))) (combine rs bs).
Proof.
  induction 1 as [|r b rs bs Hr _ (IH1 & IH2 & IH3)]; simpl.
  - repeat split; constructor.
  - rewrite IH1, IH2. repeat split. constructor; assumption.
Qed.

Lemma holds_entries (h : Store.store) (l : list (Store.ref * Balance)) :
  Forall (fun e => nth_error h (fst e) = Some (Store.BalanceObject (snd e))) l ->
  Store.holds Store.BalanceObject h (map fst l) (map snd l).
Proof. induction 1; simpl; constructor; assumption. Qed.

Lemma sort_run (h : Store.store) (balances : Store.ref) (rs : list Store.ref) (bs : list Balance) :
  nth_error h balances = Some (Store.ArrayObject rs) ->
  Store.holds Store.BalanceObject h rs bs ->
  exists sorted,
    Store.sort balances h = Some (tt, Store.update balances (Store.ArrayObject sorted) h)
    /\ Store.holds Store.BalanceObject h sorted (sortBalances bs)
    /\ Permutation sorted rs.
Proof.
  intros Ha Hb. destruct (holds_combine _ _ _ Hb) as (E1 & E2 & Hall).
  exists (map fst (Store.sortEntries (combine rs bs))). split; [|split].
  - unfold Store.sort. rewrite (bind_run _ _ _ _ _ (getArray_run _ _ _ Ha)).
    rewrite (bind_run _ _ _ _ _ (mapM_get Store.BalanceObject Store.getBalance h
                                   (getBalance_run h) rs bs Hb)).
    apply (assign_run _ _ _ _ Ha).
  - rewrite <- E2 at 2. rewrite <- sortEntries_values. apply holds_entries.
    eapply Permutation_Forall; [apply Permutation_sym, sortEntries_perm | exact Hall].
  - rewrite <- E1 at 2. apply Permutation_map, sortEntries_perm.
Qed.

(** *** Assignment to one balance *)

Lemma holds_update_at (h : Store.store) (rs : list Store.ref) (bs : list Balance) :
  Store.holds Store.BalanceObject h rs bs -> NoDup rs ->
  forall i r b v,
    nth_error rs i = Some r -> nth_error bs i = Some b ->
    Store.holds Store.BalanceObject (Store.update r (Store.BalanceObject (withBalance b v)) h) rs (setBalance i v bs).
Proof.
  induction 1 as [|r0 b0 rs bs Hr Hrest IH]; intros Hnd i r b v Hi Hb;
    [destruct i; discriminate|].
  inversion Hnd as [|? ? Hx Hnd']; subst.
  destruct i as [|i]; simpl in Hi, Hb.
  - injection Hi as <-. injection Hb as <-. cbn [setBalance]. constructor.
    + apply nth_error_update_same. apply (nth_error_in_range _ _ _ Hr).
    + apply holds_update_other; assumption.
  - cbn [setBalance]. constructor.
    + rewrite nth_error_update_other; [exact Hr|].
      intro E. apply Hx. rewrite <- E. apply (nth_error_In _ _ Hi).
    + apply IH; assumption.
Qed.

Lemma modifyBalance_run (h : Store.store) balances settlements rs bal srs ss
  (i : nat) (r : Store.ref) (g : Balance -> Q) :
  cells h balances settlements rs bal srs ss -> NoDup rs ->
  nth_error rs i = Some r ->
  exists b h',
    nth_error bal i = Some b
    /\ Store.modifyBalance r g h = Some (tt, h')
    /\ cells h' balances settlements rs (setBalance i (g b) bal) srs ss
    /\ (forall n, (n <= r)%nat -> frame n h h')
    /\ List.length h' = List.length h.
Proof.
  intros (Ha & Hb & Hs & Hss) Hnd Hi.
  destruct (holds_nth _ _ _ _ _ _ Hb Hi) as [b [Hbi Hr]].
  exists b, (Store.update r (Store.BalanceObject (withBalance b (g b))) h).
  split; [exact Hbi|]. split.
  - unfold Store.modifyBalance. rewrite (bind_run _ _ _ _ _ (getBalance_run _ _ _ Hr)).
    apply (assign_run _ _ _ _ Hr).
  - split; [|split; [intros n L; apply frame_update, L | apply length_update]].
    repeat split.
    + rewrite nth_error_update_other; [exact Ha|]. intro E. subst r. congruence.
    + apply holds_update_at; assumption.
    + rewrite nth_error_update_other; [exact Hs|]. intro E. subst r. congruence.
    + apply holds_update_other; [exact Hss|].
      apply (holds_not_In _ _ _ _ _ _ Hss Hr). intros x E. discriminate.
Qed.

(** *** Recording a transfer *)

Lemma record_run (h : Store.store) balances settlements rs bal srs ss
  (pushed : bool) (s : Settlement) :
  cells h balances settlements rs bal srs ss ->
  balances <> settlements ->
  exists h' srs',
    (if pushed then Store.bind (Store.alloc (Store.SettlementObject s)) (fun r => Store.push settlements r)
     else Store.ret tt) h = Some (tt, h')
    /\ cells h' balances settlements rs bal srs' (if pushed then ss ++ [s] else ss)
    /\ (forall n, (n <= settlements)%nat -> frame n h h')
    /\ (List.length h <= List.length h')%nat.
Proof.
  intros (Ha & Hb & Hs & Hss) Hne. destruct pushed.
  - set (h1 := h ++ [Store.SettlementObject s]).
    assert (Hs1 : nth_error h1 settlements = Some (Store.ArrayObject srs))
      by (apply nth_error_app_old, Hs).
    exists (Store.update settlements (Store.ArrayObject (srs ++ [List.length h])) h1),
           (srs ++ [List.length h]).
    assert (Lt := nth_error_in_range _ _ _ Hs).
    split; [|split; [|split]].
    + unfold Store.bind at 1, Store.alloc. fold h1. unfold Store.push.
      rewrite (bind_run _ _ _ _ _ (getArray_run _ _ _ Hs1)).
      apply (assign_run _ _ _ _ Hs1).
    + repeat split.
      * rewrite nth_error_update_other by congruence. apply nth_error_app_old, Ha.
      * apply holds_update_other; [apply holds_app, Hb|].
        apply (holds_not_In _ _ _ _ _ _ Hb Hs). intros x E. discriminate.
      * apply nth_error_update_same. unfold h1. rewrite length_app. simpl. lia.
      * apply holds_snoc.
        -- apply holds_update_other; [apply holds_app, Hss|].
           apply (holds_not_In _ _ _ _ _ _ Hss Hs). intros x E. discriminate.
        -- rewrite nth_error_update_other by lia. apply nth_error_app_new.
    + intros n L. apply (frame_trans _ _ h1).
      * apply frame_app. lia.
      * apply frame_update, L.
    + rewrite length_update. unfold h1. rewrite length_app. simpl. lia.
  - exists h, srs. split; [reflexivity|]. split; [repeat split; assumption|].
    split; [intros n _; apply frame_refl | lia].
Qed.

End StoreOperations.

(** ** The store: the loop and the function *)

Section StoreRefinement.

Lemma pick_two {A : Type} (c : bool) (x y : A) (l : list A) :
  nth_error (x :: y :: l) (if c then 0%nat else 1%nat) = Some (if c then x else y).
Proof. destruct c; reflexivity. Qed.

Lemma nth_of_nth_error {A : Type} (l : list A) (i : nat) (x d : A) :
  nth_error l i = Some x -> nth i l d = x.
Proof. intro H. apply nth_error_nth, H. Qed.

(** One iteration on the store does what [loopBody] does on the values,
    and touches no object older than [n0]. *)
Lemma loop_iteration (n0 fuel : nat) (h : Store.store) (balances settlements : Store.ref)
  (bal : list Balance) (ss : list Settlement) :
  Store.loopState n0 h balances settlements bal ss ->
  (1 <? List.length bal)%nat = true ->
  exists h' balances',
    Store.loop (S fuel) balances settlements h = Store.loop fuel balances' settlements h'
    /\ frame n0 h h'
    /\ Store.loopState n0 h' balances' settlements
         (fst (loopBody (bal, ss))) (snd (loopBody (bal, ss))).
Proof.
  intros (rs & srs & Ha & Hb & Hnd & Hge & Hna & Hs & Hss & Hns & Hne) Hlen.
  assert (Lrs := holds_length _ _ _ _ Hb).
  (* the test of the loop *)
  cbn [Store.loop]. rewrite (bind_run _ _ _ _ _ (getArray_run _ _ _ Ha)).
  rewrite Lrs, Hlen.
  (* the sort *)
  destruct (sort_run _ _ _ _ Ha Hb) as (sorted & Hsort & Hsb & Hperm).
  rewrite (bind_run _ _ _ _ _ Hsort).
  set (h1 := Store.update balances (Store.ArrayObject sorted) h).
  assert (Hnd1 : NoDup sorted)
    by (eapply Permutation_NoDup; [apply Permutation_sym, Hperm | exact Hnd]).
  assert (Hge1 : Forall (fun r => (n0 <= r)%nat) sorted)
    by (eapply Permutation_Forall; [apply Permutation_sym, Hperm | exact Hge]).
  assert (C1 : cells h1 balances settlements sorted (sortBalances bal) srs ss).
  { unfold h1. repeat split.
    - apply nth_error_update_same. apply (nth_error_in_range _ _ _ Ha).
    - apply holds_update_other; [exact Hsb|].
      apply (holds_not_In _ _ _ _ _ _ Hsb Ha). intros x E. discriminate.
    - rewrite nth_error_update_other by exact Hne. exact Hs.
    - apply holds_update_other; [exact Hss|].
      apply (holds_not_In _ _ _ _ _ _ Hss Ha). intros x E. discriminate. }
  assert (F1 : frame n0 h h1) by (unfold h1; apply frame_update, Hna).
  assert (L1 : List.length h1 = List.length h) by (unfold h1; apply length_update).
  destruct C1 as (Ha1 & Hb1 & Hs1 & Hss1).
  rewrite (bind_run _ _ _ _ _ (getArray_run _ _ _ Ha1)).
  (* the two largest entries *)
  assert (Lsorted : List.length (sortBalances bal) = List.length bal)
    by (apply Permutation_length, sortBalances_perm).
  unfold loopBody.
  destruct (sortBalances bal) as [|b0 [|b1 brest]] eqn:Eb;
    try (apply Nat.ltb_lt in Hlen; simpl in Lsorted; lia).
  inversion Hb1 as [|r0 ? rest1 ? Hr0 Hb1']; subst.
  inversion Hb1' as [|r1 ? rrest ? Hr1 Hb1'']; subst.
  assert (Hb1s : Store.holds Store.BalanceObject h1 (r0 :: r1 :: rrest) (b0 :: b1 :: brest))
    by (constructor; [exact Hr0 | constructor; assumption]).
  rewrite (bind_run _ _ _ _ _ (getBalance_run _ _ _ Hr0)).
  cbv zeta.
  set (debtor := if Qltb (balance b0) 0 then r0 else r1).
  set (creditor := if Qltb 0 (balance b0) then r0 else r1).
  assert (Hdi : nth_error (r0 :: r1 :: rrest) (debtorIndex b0) = Some debtor)
    by (unfold debtorIndex, debtor; apply pick_two).
  assert (Hci : nth_error (r0 :: r1 :: rrest) (creditorIndex b0) = Some creditor)
    by (unfold creditorIndex, creditor; apply pick_two).
  destruct (holds_nth _ _ _ _ _ _ Hb1s Hdi) as [d [Hd Hrd]].
  destruct (holds_nth _ _ _ _ _ _ Hb1s Hci) as [c [Hc Hrc]].
  rewrite (nth_of_nth_error _ _ _ b0 Hd), (nth_of_nth_error _ _ _ b0 Hc).
  rewrite (bind_run _ _ _ _ _ (getBalance_run _ _ _ Hrd)).
  rewrite (bind_run _ _ _ _ _ (getBalance_run _ _ _ Hrc)).
  set (amount := Qmin (Qabs (balance d)) (balance c)).
  (* the transfer *)
  destruct (record_run h1 balances settlements (r0 :: r1 :: rrest) (b0 :: b1 :: brest) srs ss
              (Qltb 0 amount)
              {| from := bal_id d; to := bal_id c; amount := toFixed2 amount |}
              (conj Ha1 (conj Hb1s (conj Hs1 Hss1))) Hne)
    as (h3 & srs3 & Hrec & C3 & F3 & L3).
  rewrite (bind_run _ _ _ _ _ Hrec).
  (* the two assignments *)
  destruct (modifyBalance_run h3 balances settlements _ _ _ _ (debtorIndex b0) debtor
              (fun entry => toFixed2 (balance entry + amount)) C3 Hnd1 Hdi)
    as (d' & h4 & Hd' & Hmod4 & C4 & F4 & L4).
  rewrite Hd in Hd'. injection Hd' as <-.
  rewrite (bind_run _ _ _ _ _ Hmod4).
  destruct (modifyBalance_run h4 balances settlements _ _ _ _ (creditorIndex b0) creditor
              (fun entry => toFixed2 (balance entry - amount)) C4 Hnd1 Hci)
    as (c' & h5 & Hc' & Hmod5 & C5 & F5 & L5).
  rewrite (bind_run _ _ _ _ _ Hmod5).
  rewrite (nth_of_nth_error _ _ _ b0 Hc').
  (* the filter *)
  destruct C5 as (Ha5 & Hb5 & Hs5 & Hss5).
  destruct (keepUnsettled_run _ _ _ _ Ha5 Hb5) as (kept & Hkeep & Hk & Hincl & Hndk).
  rewrite (bind_run _ _ _ _ _ Hkeep).
  exists (h5 ++ [Store.ArrayObject kept]), (List.length h5).
  split; [reflexivity|].
  assert (Hdeb : (n0 <= debtor)%nat).
  { rewrite Forall_forall in Hge1. apply Hge1. apply (nth_error_In _ _ Hdi). }
  assert (Hcre : (n0 <= creditor)%nat).
  { rewrite Forall_forall in Hge1. apply Hge1. apply (nth_error_In _ _ Hci). }
  assert (Ls : (settlements < List.length h5)%nat) by apply (nth_error_in_range _ _ _ Hs5).
  split.
  - apply (frame_trans _ _ h1); [exact F1|].
    apply (frame_trans _ _ h3); [apply F3, Hns|].
    apply (frame_trans _ _ h4); [apply F4, Hdeb|].
    apply (frame_trans _ _ h5); [apply F5, Hcre|].
    apply frame_app. lia.
  - exists kept, srs3. cbn [fst snd]. repeat split.
    + apply nth_error_app_new.
    + exact Hk.
    + apply Hndk, Hnd1.
    + apply Forall_forall. intros r Hr. rewrite Forall_forall in Hge1.
      apply Hge1, Hincl, Hr.
    + lia.
    + apply nth_error_app_old, Hs5.
    + fold amount. apply holds_app, Hss5.
    + exact Hns.
    + lia.
Qed.

(** The loop on the store against [loop] on the values. *)
Lemma loop_refines (n0 : nat) (fuel : nat) : forall h balances settlements bal ss,
  Store.loopState n0 h balances settlements bal ss ->
  match loop fuel (bal, ss) with
  | Some (_, ss') =>
      exists h' srs,
        Store.loop fuel balances settlements h = Some (settlements, h')
        /\ frame n0 h h'
        /\ nth_error h' settlements = Some (Store.ArrayObject srs)
        /\ Store.holds Store.SettlementObject h' srs ss'
  | None => Store.loop fuel balances settlements h = None
  end.
Proof.
  induction fuel as [|fuel IH]; intros h balances settlements bal ss Hst.
  - destruct Hst as (rs & srs & Ha & Hb & Hnd & Hge & Hna & Hs & Hss & Hns & Hne).
    assert (Lrs := holds_length _ _ _ _ Hb).
    cbn [loop Store.loop fst]. rewrite (bind_run _ _ _ _ _ (getArray_run _ _ _ Ha)), Lrs.
    destruct (1 <? List.length bal)%nat; [reflexivity|].
    exists h, srs. repeat split; assumption || apply frame_refl.
  - destruct (1 <? List.length bal)%nat eqn:Hlen.
    + destruct (loop_iteration n0 fuel h balances settlements bal ss Hst Hlen)
        as (h' & balances' & Hstep & Hf & Hst').
      rewrite Hstep.
      change (loop (S fuel) (bal, ss))
        with (if (1 <? List.length bal)%nat then loop fuel (loopBody (bal, ss))
              else Some (bal, ss)).
      rewrite Hlen.
      specialize (IH h' balances' settlements _ _ Hst').
      rewrite <- surjective_pairing in IH.
      destruct (loop fuel (loopBody (bal, ss))) as [[bal' ss']|]; [|exact IH].
      destruct IH as (h'' & srs & Hrun & Hf' & Hs & Hss).
      exists h'', srs. repeat split; try assumption.
      apply (frame_trans _ _ h'); assumption.
    + destruct Hst as (rs & srs & Ha & Hb & Hnd & Hge & Hna & Hs & Hss & Hns & Hne).
      assert (Lrs := holds_length _ _ _ _ Hb).
      cbn [loop Store.loop fst].
      rewrite (bind_run _ _ _ _ _ (getArray_run _ _ _ Ha)), Lrs, Hlen.
      exists h, srs. repeat split; assumption || apply frame_refl.
Qed.

End StoreRefinement.

Section StoreFunction.

Lemma holds_map {A C : Type} (inj : C -> Store.object) (f : A -> C) (h : Store.store)
  (rs : list Store.ref) (xs : list A) :
  Store.holds (fun x => inj (f x)) h rs xs -> Store.holds inj h rs (map f xs).
Proof. unfold Store.holds. induction 1; simpl; constructor; assumption. Qed.

Lemma alloc_run (o : Store.object) (h : Store.store) :
  Store.alloc o h = Some (List.length h, h ++ [o]).
Proof. reflexivity. Qed.

Lemma seq_from (start len : nat) : Forall (fun r => (start <= r)%nat) (seq start len).
Proof. apply Forall_forall. intros r Hr. apply in_seq in Hr. lia. Qed.

(** The function on the store against the function on the values: the
    same transfers, in a new array, and every object of the store it was
    called on left as it was. *)
Lemma calculateSettlements_refines (fuel : nat) (h : Store.store) (players : Store.ref)
  (ps : list Player) (imbalanceThreshold : Q) :
  Store.holdsPlayers h players ps ->
  match calculateSettlements fuel ps imbalanceThreshold with
  | Some ss =>
      exists r h' srs,
        Store.calculateSettlements fuel players imbalanceThreshold h = Some (r, h')
        /\ Store.preserved h h'
        /\ (List.length h <= r)%nat
        /\ nth_error h' r = Some (Store.ArrayObject srs)
        /\ Store.holds Store.SettlementObject h' srs ss
  | None => Store.calculateSettlements fuel players imbalanceThreshold h = None
  end.
Proof.
  intros Hplayers. assert (Htot := calculateTotals_run _ _ _ Hplayers).
  destruct Hplayers as (items & Ha & Hp).
  assert (Litems := holds_length _ _ _ _ Hp).
  unfold Store.calculateSettlements. rewrite (bind_run _ _ _ _ _ Htot). cbv zeta.
  unfold calculateSettlements, runSettlements, exceedsThreshold, imbalanceOf. cbv zeta.
  set (imbalance := totalCashOuts (calculateTotals ps) - totalBuyIns (calculateTotals ps)).
  destruct (Qltb imbalanceThreshold (Qabs imbalance)) eqn:Hguard.
  - cbn [option_map snd]. exists (List.length h), (h ++ [Store.ArrayObject []]), [].
    repeat split.
    + apply preserved_app, preserved_refl.
    + lia.
    + apply nth_error_app_new.
    + constructor.
  - rewrite (bind_run _ _ _ _ _ (getArray_run _ _ _ Ha)).
    rewrite (bind_run _ _ _ _ _ (alloc_run (Store.ArrayObject items) h)).
    set (h1 := h ++ [Store.ArrayObject items]).
    assert (Hp1 : Store.holds Store.PlayerObject h1 items ps) by (apply holds_app, Hp).
    (* the adjusted players *)
    assert (Hadj : exists hA aref arefs,
              (if Qle_bool (Qabs imbalance) imbalanceThreshold && (0 <? List.length items)%nat
               then
                 Store.bind
                   (Store.mapM
                      (fun r =>
                         Store.bind (Store.getPlayer r)
                           (fun player =>
                              Store.alloc
                                (Store.PlayerObject
                                   {| id := id player; name := name player;
                                      buyIn := buyIn player;
                                      cashOut :=
                                        toFixed2
                                          (cashOut player
                                           - imbalance
                                             / inject_Z (Z.of_nat (List.length items))) |})))
                      items)
                   (fun adjusted => Store.alloc (Store.ArrayObject adjusted))
               else Store.ret (List.length h)) h1 = Some (aref, hA)
              /\ nth_error hA aref = Some (Store.ArrayObject arefs)
              /\ Store.holds Store.PlayerObject hA arefs (adjustPlayers ps imbalanceThreshold)
              /\ Store.preserved h hA).
    { unfold adjustPlayers, imbalanceOf. cbv zeta. fold imbalance. rewrite Litems.
      destruct (Qle_bool (Qabs imbalance) imbalanceThreshold && (0 <? List.length ps)%nat).
      - set (adjust := fun player : Player =>
                         {| id := id player; name := name player; buyIn := buyIn player;
                            cashOut := toFixed2 (cashOut player
                                          - imbalance / inject_Z (Z.of_nat (List.length ps))) |}).
        assert (Hc := mapM_create Store.PlayerObject Store.getPlayer
                        (fun p => Store.PlayerObject (adjust p))
                        (fun h0 r x => getPlayer_run h0 r x) items ps h1 Hp1).
        exists ((h1 ++ map (fun p => Store.PlayerObject (adjust p)) ps)
                ++ [Store.ArrayObject (seq (List.length h1) (List.length items))]),
               (List.length (h1 ++ map (fun p => Store.PlayerObject (adjust p)) ps)),
               (seq (List.length h1) (List.length items)).
        split; [|split; [|split]].
        + rewrite (bind_run _ _ _ _ _ Hc). reflexivity.
        + apply nth_error_app_new.
        + apply holds_app. apply (holds_map Store.PlayerObject adjust).
          rewrite Litems. apply (holds_created (fun p => Store.PlayerObject (adjust p))).
        + unfold h1. repeat apply preserved_app. apply preserved_refl.
      - exists h1, (List.length h), items. repeat split.
        + unfold h1. apply nth_error_app_new.
        + exact Hp1.
        + unfold h1. apply preserved_app, preserved_refl. }
    destruct Hadj as (hA & aref & arefs & HrunA & HaA & HpA & HprA).
    rewrite (bind_run _ _ _ _ _ HrunA).
    rewrite (bind_run _ _ _ _ _ (getArray_run _ _ _ HaA)).
    (* the balances *)
    assert (Hc := mapM_create Store.PlayerObject Store.getPlayer
                    (fun p => Store.BalanceObject (toBalance p))
                    (fun h0 r x => getPlayer_run h0 r x) arefs _ hA HpA).
    rewrite (bind_run _ _ _ _ _ Hc).
    set (entries := seq (List.length hA) (List.length arefs)).
    set (hB := hA ++ map (fun p => Store.BalanceObject (toBalance p))
                         (adjustPlayers ps imbalanceThreshold)).
    assert (HbB : Store.holds Store.BalanceObject hB entries
                    (allBalances ps imbalanceThreshold)).
    { unfold allBalances, entries, hB. apply (holds_map Store.BalanceObject toBalance).
      rewrite (holds_length _ _ _ _ HpA).
      apply (holds_created (fun p => Store.BalanceObject (toBalance p))). }
    fold entries. fold hB.
    rewrite (bind_run _ _ _ _ _ (alloc_run (Store.ArrayObject entries) hB)).
    set (hC := hB ++ [Store.ArrayObject entries]).
    destruct (keepUnsettled_run hC (List.length hB) entries _
                (nth_error_app_new hB _) (holds_app _ _ _ _ _ HbB))
      as (kept & Hkeep & Hk & Hincl & Hndk).
    rewrite (bind_run _ _ _ _ _ Hkeep).
    set (hD := hC ++ [Store.ArrayObject kept]).
    rewrite (bind_run _ _ _ _ _ (alloc_run (Store.ArrayObject []) hD)).
    set (hE := hD ++ [Store.ArrayObject []]).
    assert (LA := preserved_length _ _ HprA).
    assert (LB : (List.length hA <= List.length hB)%nat)
      by (unfold hB; rewrite length_app; lia).
    assert (LC : List.length hC = S (List.length hB))
      by (unfold hC; rewrite length_app; simpl; lia).
    assert (LD : List.length hD = S (List.length hC))
      by (unfold hD; rewrite length_app; simpl; lia).
    assert (HprE : Store.preserved h hE).
    { unfold hE, hD, hC, hB. repeat apply preserved_app. exact HprA. }
    assert (Hst : Store.loopState (List.length h) hE (List.length hC) (List.length hD)
                    (initialBalances ps imbalanceThreshold) []).
    { exists kept, []. repeat split.
      - unfold hE. apply nth_error_app_old. unfold hD. apply nth_error_app_new.
      - unfold hE. apply holds_app. exact Hk.
      - apply Hndk. apply seq_NoDup.
      - apply Forall_forall. intros r Hr. apply Hincl in Hr.
        unfold entries in Hr. apply in_seq in Hr. lia.
      - lia.
      - unfold hE. apply nth_error_app_new.
      - constructor.
      - lia.
      - lia. }
    assert (Href := loop_refines (List.length h) fuel hE _ _ _ _ Hst).
    unfold startState.
    destruct (loop fuel (initialBalances ps imbalanceThreshold, [])) as [[bal' ss']|].
    + destruct Href as (h' & srs & Hrun & Hf & Hs & Hss).
      cbn [option_map snd]. exists (List.length hD), h', srs.
      repeat split; try assumption; [|lia].
      apply (frame_preserved _ _ _ HprE Hf).
    + exact Href.
Qed.

End StoreFunction.

(** ** Two calls in a row *)

Section TwoCalls.

Lemma holdsPlayers_preserved (h0 h : Store.store) (players : Store.ref) (ps : list Player) :
  Store.preserved h0 h -> Store.holdsPlayers h0 players ps -> Store.holdsPlayers h players ps.
Proof.
  intros Hpr (items & Ha & Hp). exists items. split.
  - apply (preserved_read _ _ _ _ Hpr Ha).
  - apply (holds_preserved _ _ _ _ _ Hpr Hp).
Qed.

Lemma transfers_run (h : Store.store) (r : Store.ref) (srs : list Store.ref)
  (ss : list Settlement) :
  nth_error h r = Some (Store.ArrayObject srs) ->
  Store.holds Store.SettlementObject h srs ss ->
  Store.transfers r h = Some (ss, h).
Proof.
  intros Hr Hs. unfold Store.transfers.
  rewrite (bind_run _ _ _ _ _ (getArray_run _ _ _ Hr)).
  apply (mapM_get Store.SettlementObject Store.getSettlement h
           (fun r0 x => getSettlement_run h r0 x) srs ss Hs).
Qed.

(** C8.  The function is run on a store: the objects the caller holds (the
    players and the array of them) and whatever else has been allocated,
    which is all the state there is for a call to read or to leave behind.
    When a call returns, every object that was in the store is as it was
    (the balances it sorts, mutates and filters are objects of its own),
    and the transfers it returns are those of the function on the values.
    A second call on the same array and threshold, run on the store the
    first call left, returns as well; and a second call on the same
    threshold and any array holding the same players (that array or a copy
    of it), whatever time it is given, returns a new array with the same
    transfers in the same order, and leaves the array of the first call as
    it was. *)
Theorem two_calls_return_identical_transfers
  (fuel1 : nat) (h h1 : Store.store) (players r1 : Store.ref) (ps : list Player)
  (imbalanceThreshold : Q) :
  Store.holdsPlayers h players ps ->
  Store.calculateSettlements fuel1 players imbalanceThreshold h = Some (r1, h1) ->
  Store.preserved h h1
  /\ exists settlements,
       calculateSettlements fuel1 ps imbalanceThreshold = Some settlements
       /\ Store.transfers r1 h1 = Some (settlements, h1)
       /\ (exists r2 h2,
             Store.calculateSettlements fuel1 players imbalanceThreshold h1 = Some (r2, h2))
       /\ forall fuel2 players2 r2 h2,
            Store.holdsPlayers h1 players2 ps ->
            Store.calculateSettlements fuel2 players2 imbalanceThreshold h1 = Some (r2, h2) ->
            Store.preserved h1 h2
            /\ r1 <> r2
            /\ Store.transfers r2 h2 = Some (settlements, h2)
            /\ Store.transfers r1 h2 = Some (settlements, h2).
Proof.
  intros Hp H1.
  assert (R1 := calculateSettlements_refines fuel1 h players ps imbalanceThreshold Hp).
  destruct (calculateSettlements fuel1 ps imbalanceThreshold) as [ss|] eqn:E1;
    [|congruence].
  destruct R1 as (r & h' & srs & Hrun & Hpr & Hle & Hr & Hs).
  rewrite H1 in Hrun. inversion Hrun; subst r h'. clear Hrun.
  assert (Hp1 := holdsPlayers_preserved _ _ _ _ Hpr Hp).
  split; [exact Hpr|]. exists ss.
  split; [reflexivity|].
  split; [exact (transfers_run _ _ _ _ Hr Hs)|].
  split.
  - assert (R2 := calculateSettlements_refines fuel1 h1 players ps imbalanceThreshold Hp1).
    rewrite E1 in R2. destruct R2 as (r2 & h2 & _ & Hrun2 & _).
    exists r2, h2. exact Hrun2.
  - intros fuel2 players2 r2 h2 Hp2 H2.
    assert (R2 := calculateSettlements_refines fuel2 h1 players2 ps imbalanceThreshold Hp2).
    destruct (calculateSettlements fuel2 ps imbalanceThreshold) as [ss'|] eqn:E2;
      [|congruence].
    destruct R2 as (r & h' & srs' & Hrun & Hpr2 & Hle2 & Hr2 & Hs2).
    rewrite H2 in Hrun. inversion Hrun; subst r h'. clear Hrun.
    assert (ss = ss') by exact (calculateSettlements_deterministic _ _ _ _ _ _ E1 E2).
    subst ss'.
    assert (L := nth_error_in_range _ _ _ Hr).
    split; [exact Hpr2|]. split; [lia|].
    split; [exact (transfers_run _ _ _ _ Hr2 Hs2)|].
    apply (transfers_run _ _ srs).
    + apply (preserved_read _ _ _ _ Hpr2 Hr).
    + apply (holds_preserved _ _ _ _ _ Hpr2 Hs).
Qed.

Lemma two_calls_return_identical_transfers_witness :
  Store.holdsPlayers exampleStore 2%nat example1
  /\ exists r1 h1,
       Store.calculateSettlements 2 2%nat 0 exampleStore = Some (r1, h1)
       /\ Store.preserved exampleStore h1
       /\ Store.transfers r1 h1
          = Some ([ {| from := "B"; to := "A"; amount := 5000 # 100 |} ], h1)
       /\ (exists r2 h2, Store.calculateSettlements 2 2%nat 0 h1 = Some (r2, h2))
       /\ forall fuel2 players2 r2 h2,
            Store.holdsPlayers h1 players2 example1 ->
            Store.calculateSettlements fuel2 players2 0 h1 = Some (r2, h2) ->
            Store.preserved h1 h2
            /\ r1 <> r2
            /\ Store.transfers r2 h2
               = Some ([ {| from := "B"; to := "A"; amount := 5000 # 100 |} ], h2)
            /\ Store.transfers r1 h2
               = Some ([ {| from := "B"; to := "A"; amount := 5000 # 100 |} ], h2).
Proof.
  assert (Hp : Store.holdsPlayers exampleStore 2%nat example1).
  { exists [0%nat; 1%nat]. split; [reflexivity|]. repeat constructor. }
  split; [exact Hp|].
  destruct (Store.calculateSettlements 2 2%nat 0 exampleStore) as [[r1 h1]|] eqn:E1;
    [|vm_compute in E1; discriminate].
  exists r1, h1. split; [reflexivity|].
  destruct (two_calls_return_identical_transfers 2 exampleStore h1 2%nat r1 example1 0 Hp E1)
    as (Hpr & ss & Hss & Ht1 & Hex & Hsecond).
  assert (Hv : ss = [ {| from := "B"; to := "A"; amount := 5000 # 100 |} ]).
  { vm_compute in Hss. inversion Hss. reflexivity. }
  rewrite Hv in Ht1, Hsecond.
  split; [exact Hpr|]. split; [exact Ht1|]. split; [exact Hex|]. exact Hsecond.
Defined.

End TwoCalls.
